(** * ThorLog: a leveled logging engine and its ESP-IDF print adapter

    A shallow embedding of [thorlog.h] (class [ThorLogging]) and of
    [thorlog_espidf.h] (class [EspIdfPrint]), followed by the properties of
    the severity gate, the decoration pipeline, the format interpreter and
    the numeric conversions.

    Conventions of the embedding.
    - C integers are [Z]; conversions between integer types are written out
      as reductions modulo a power of two ([to_unsigned], [to_signed]).
      [int] and [unsigned int] have 32 bits, [char] has 8; the width of
      [long], [unsigned long] and of pointers is [long_bits], a field of the
      class [Platform] (32 on the ESP32 family, 64 on an LP64 host).
    - A C string is a [string]: the end of the value stands for the
      terminating NUL.  Should the value hold a NUL, the scan stops there as
      the C++ loop does.  A [const char*] that may be null is an
      [option string].
    - The engine talks to its sink through the abstract class [ThorPrint];
      a run of the engine is described by the list of calls it makes on the
      sink and of the hook functions it invokes (type [event]), in order.
      What a hook does once it is invoked is the hook's own: the event
      records the invocation and its two arguments.
    - A member function of [ThorLogging] is a computation [M A]: it reads and
      may update the object [this], appends events, and either returns or
      stops on a [fault] where the C++ has undefined behaviour (a null sink
      that is dereferenced, a variadic argument that is missing or of the
      wrong class, a read outside the level table). *)

From Stdlib Require Import ZArith List String Ascii Bool Lia.
Import ListNotations.

Local Open Scope string_scope.
Local Open Scope list_scope.
Local Open Scope Z_scope.

Local Infix "+:+" := String.append (at level 60, right associativity).

(** ** Constants of thorlog.h *)

Definition THORLOG_DEC : Z := 10.
Definition THORLOG_HEX : Z := 16.
Definition THORLOG_BIN : Z := 2.

Definition THORLOG_LEVEL_SILENT  : Z := 0.
Definition THORLOG_LEVEL_FATAL   : Z := 1.
Definition THORLOG_LEVEL_ERROR   : Z := 2.
Definition THORLOG_LEVEL_WARNING : Z := 3.
Definition THORLOG_LEVEL_INFO    : Z := 4.
Definition THORLOG_LEVEL_NOTICE  : Z := 4.
Definition THORLOG_LEVEL_TRACE   : Z := 5.
Definition THORLOG_LEVEL_VERBOSE : Z := 6.

Definition char_CR : ascii := "013"%char.
Definition char_LF : ascii := "010"%char.
Definition char_NUL : ascii := "000"%char.

Definition THORLOG_CR : string := String char_CR "".
Definition THORLOG_LF : string := String char_LF "".
Definition THORLOG_NL : string := String char_CR (String char_LF "").

(** [template<typename T> T thorlog_constrain(T val, T min, T max)], at [int]. *)
Definition thorlog_constrain (val min max : Z) : Z :=
  if val <? min then min else (if val >? max then max else val).

(** ** Machine integers *)

Class Platform : Type := { long_bits : Z }.

Definition int_bits : Z := 32.
Definition char_bits : Z := 8.

Definition to_unsigned (w v : Z) : Z := v mod 2 ^ w.

Definition to_signed (w v : Z) : Z :=
  let u := v mod 2 ^ w in
  if u <? 2 ^ (w - 1) then u else u - 2 ^ w.

(** [static_cast<char>(c)]: the low byte, as a character. *)
Definition char_of_int (c : Z) : ascii :=
  ascii_of_N (Z.to_N (to_unsigned char_bits c)).

(** A [double] is carried as its 64-bit pattern; the engine only passes it on. *)
Definition double : Type := Z.

(** ** The sink interface [ThorPrint]

    One constructor per pure virtual member; all seven are called [print]
    in the C++ and are told apart by the argument type. *)
Inductive ThorPrint_call : Type :=
| print_char (c : ascii)
| print_str (str : option string)
| print_int (num base : Z)
| print_uint (num base : Z)
| print_long (num base : Z)
| print_ulong (num base : Z)
| print_double (num : double).

(** A [ThorPrint*] that is not null names a sink object; a [printfunction]
    that is not null names a hook function. *)
Definition sink_ref : Type := nat.
Definition hook_ref : Type := nat.

Inductive event : Type :=
| Call (sink : sink_ref) (c : ThorPrint_call)
| Invoke (f : hook_ref) (output : option sink_ref) (level : Z).

Definition events : Type := list event.

(** ** The engine state: the fields of [ThorLogging] *)

Record ThorLogging : Type := mkThorLogging {
  _level : Z;
  _showLevel : bool;
  _logOutput : option sink_ref;
  _prefix : option hook_ref;
  _suffix : option hook_ref
}.

(** The default constructor. *)
Definition ThorLogging_new : ThorLogging :=
  {| _level := THORLOG_LEVEL_SILENT;
     _showLevel := true;
     _logOutput := None;
     _prefix := None;
     _suffix := None |}.

(** ** Member functions as computations over [this] *)

Inductive fault : Type :=
| NullSink
| BadVaArg
| TagOutOfBounds.

Inductive res (A : Type) : Type :=
| Ok (a : A)
| Fault (f : fault).
Arguments Ok {A} a.
Arguments Fault {A} f.

Definition M (A : Type) : Type := ThorLogging -> res (A * ThorLogging * events).

Definition ret {A : Type} (a : A) : M A :=
  fun this => Ok (a, this, []).

Definition bind {A B : Type} (m : M A) (k : A -> M B) : M B :=
  fun this =>
    match m this with
    | Ok (a, this1, t1) =>
        match k a this1 with
        | Ok (b, this2, t2) => Ok (b, this2, t1 ++ t2)
        | Fault f => Fault f
        end
    | Fault f => Fault f
    end.

Notation "x <- m ;; k" := (bind m (fun x => k))
  (at level 61, m at next level, right associativity).
Notation "' pat <- m ;; k" := (bind m (fun x => match x with pat => k end))
  (at level 61, pat pattern, m at next level, right associativity).
Notation "m ;; k" := (bind m (fun _ => k))
  (at level 61, right associativity).

Definition get {A : Type} (field : ThorLogging -> A) : M A :=
  fun this => Ok (field this, this, []).

Definition put (this' : ThorLogging) : M unit :=
  fun _ => Ok (tt, this', []).

Definition lift {A : Type} (r : res A) : M A :=
  fun this => match r with Ok a => Ok (a, this, []) | Fault f => Fault f end.

Definition when (b : bool) (m : M unit) : M unit :=
  if b then m else ret tt.

(** [_logOutput->print(...)]: a call through the stored sink pointer. *)
Definition sink (c : ThorPrint_call) : M unit :=
  fun this =>
    match _logOutput this with
    | Some p => Ok (tt, this, [Call p c])
    | None => Fault NullSink
    end.

(** [f(_logOutput, level)]: a call of a hook, which is handed the sink
    pointer (null or not) and the level. *)
Definition invoke (f : hook_ref) (level : Z) : M unit :=
  fun this => Ok (tt, this, [Invoke f (_logOutput this) level]).

(** *** Configuration *)

Definition begin (level : Z) (output : option sink_ref) (showLevel : bool) : M unit :=
  this <- get id ;;
  put {| _level := thorlog_constrain level THORLOG_LEVEL_SILENT THORLOG_LEVEL_VERBOSE;
         _showLevel := showLevel;
         _logOutput := output;
         _prefix := _prefix this;
         _suffix := _suffix this |}.

Definition setLevel (level : Z) : M unit :=
  this <- get id ;;
  put {| _level := thorlog_constrain level THORLOG_LEVEL_SILENT THORLOG_LEVEL_VERBOSE;
         _showLevel := _showLevel this;
         _logOutput := _logOutput this;
         _prefix := _prefix this;
         _suffix := _suffix this |}.

Definition getLevel : M Z := get _level.

Definition setShowLevel (showLevel : bool) : M unit :=
  this <- get id ;;
  put {| _level := _level this;
         _showLevel := showLevel;
         _logOutput := _logOutput this;
         _prefix := _prefix this;
         _suffix := _suffix this |}.

Definition getShowLevel : M bool := get _showLevel.

Definition set_prefix (f : option hook_ref) : M unit :=
  this <- get id ;;
  put {| _level := _level this;
         _showLevel := _showLevel this;
         _logOutput := _logOutput this;
         _prefix := f;
         _suffix := _suffix this |}.

Definition set_suffix (f : option hook_ref) : M unit :=
  this <- get id ;;
  put {| _level := _level this;
         _showLevel := _showLevel this;
         _logOutput := _logOutput this;
         _prefix := _prefix this;
         _suffix := f |}.

(** [setPrefix] takes a [printfunction], which may itself be a null pointer. *)
Definition setPrefix (f : option hook_ref) : M unit := set_prefix f.
Definition clearPrefix : M unit := set_prefix None.
Definition setSuffix (f : option hook_ref) : M unit := set_suffix f.
Definition clearSuffix : M unit := set_suffix None.

(** ** The variadic arguments

    After the default argument promotions a variadic argument is of one of
    four classes.  An integer argument is carried by its value; [va_arg]
    reads it back at the type the interpreter asks for, by the usual
    conversion.  Reading past the end of the list, or reading an argument of
    another class, is undefined in C and is a [fault] here. *)
Inductive va_slot : Type :=
| VInteger (v : Z)
| VDouble (d : double)
| VString (s : option string)
| VPointer (addr : Z).

Definition va_list : Type := list va_slot.

Definition va_arg_integer (conv : Z -> Z) (args : va_list) : res (Z * va_list) :=
  match args with
  | VInteger v :: rest => Ok (conv v, rest)
  | _ => Fault BadVaArg
  end.

Definition va_arg_int : va_list -> res (Z * va_list) :=
  va_arg_integer (to_signed int_bits).
Definition va_arg_unsigned_int : va_list -> res (Z * va_list) :=
  va_arg_integer (to_unsigned int_bits).
Definition va_arg_long `{Platform} : va_list -> res (Z * va_list) :=
  va_arg_integer (to_signed long_bits).
Definition va_arg_unsigned_long `{Platform} : va_list -> res (Z * va_list) :=
  va_arg_integer (to_unsigned long_bits).

Definition va_arg_double (args : va_list) : res (double * va_list) :=
  match args with
  | VDouble d :: rest => Ok (d, rest)
  | _ => Fault BadVaArg
  end.

Definition va_arg_string (args : va_list) : res (option string * va_list) :=
  match args with
  | VString s :: rest => Ok (s, rest)
  | _ => Fault BadVaArg
  end.

Definition va_arg_pointer (args : va_list) : res (Z * va_list) :=
  match args with
  | VPointer a :: rest => Ok (a, rest)
  | _ => Fault BadVaArg
  end.

(** ** The format interpreter *)

Section Engine.
Context `{Platform}.

(** [void printFormat(const char format, va_list *args)].  The updated
    argument list, which the C++ reaches through the pointer, is returned.
    The chain of tests has no final [else]. *)
Definition printFormat (format : ascii) (args : va_list) : M va_list :=
  if (format =? "%")%char then
    sink (print_char "%") ;;
    ret args
  else if (format =? "s")%char then
    '(s, args) <- lift (va_arg_string args) ;;
    sink (print_str s) ;;
    ret args
  else if (format =? "c")%char then
    '(c, args) <- lift (va_arg_int args) ;;
    sink (print_char (char_of_int c)) ;;
    ret args
  else if (format =? "C")%char then
    '(c, args) <- lift (va_arg_int args) ;;
    (if (c >=? 0x20) && (c <? 0x7F) then
       sink (print_char (char_of_int c))
     else
       sink (print_str (Some "0x")) ;;
       when (c <? 0x10) (sink (print_char "0")) ;;
       sink (print_uint (to_unsigned int_bits c) THORLOG_HEX)) ;;
    ret args
  else if (format =? "d")%char || (format =? "i")%char then
    '(d, args) <- lift (va_arg_int args) ;;
    sink (print_int d THORLOG_DEC) ;;
    ret args
  else if (format =? "l")%char then
    '(l, args) <- lift (va_arg_long args) ;;
    sink (print_long l THORLOG_DEC) ;;
    ret args
  else if (format =? "u")%char then
    '(u, args) <- lift (va_arg_unsigned_long args) ;;
    sink (print_ulong u THORLOG_DEC) ;;
    ret args
  else if (format =? "x")%char then
    '(x, args) <- lift (va_arg_unsigned_int args) ;;
    sink (print_uint x THORLOG_HEX) ;;
    ret args
  else if (format =? "X")%char then
    '(x, args) <- lift (va_arg_unsigned_long args) ;;
    sink (print_str (Some "0x")) ;;
    when (x <? 0x10000000) (sink (print_char "0")) ;;
    when (x <? 0x1000000) (sink (print_char "0")) ;;
    when (x <? 0x100000) (sink (print_char "0")) ;;
    when (x <? 0x10000) (sink (print_char "0")) ;;
    when (x <? 0x1000) (sink (print_char "0")) ;;
    when (x <? 0x100) (sink (print_char "0")) ;;
    when (x <? 0x10) (sink (print_char "0")) ;;
    sink (print_ulong x THORLOG_HEX) ;;
    ret args
  else if (format =? "b")%char then
    '(b, args) <- lift (va_arg_unsigned_int args) ;;
    sink (print_uint b THORLOG_BIN) ;;
    ret args
  else if (format =? "B")%char then
    '(b, args) <- lift (va_arg_unsigned_int args) ;;
    sink (print_str (Some "0b")) ;;
    sink (print_uint b THORLOG_BIN) ;;
    ret args
  else if (format =? "t")%char then
    '(t, args) <- lift (va_arg_int args) ;;
    sink (print_str (Some (if t =? 0 then "f" else "t"))) ;;
    ret args
  else if (format =? "T")%char then
    '(t, args) <- lift (va_arg_int args) ;;
    sink (print_str (Some (if t =? 0 then "false" else "true"))) ;;
    ret args
  else if (format =? "D")%char || (format =? "F")%char then
    '(d, args) <- lift (va_arg_double args) ;;
    sink (print_double d) ;;
    ret args
  else if (format =? "p")%char then
    '(p, args) <- lift (va_arg_pointer args) ;;
    sink (print_str (Some "0x")) ;;
    sink (print_ulong (to_unsigned long_bits p) THORLOG_HEX) ;;
    ret args
  else
    ret args.

(** [void print(const char *format, va_list args)].  The function returns
    nothing in the C++; the value returned here is its local [args] when the
    loop is left. *)
Fixpoint print (format : string) (args : va_list) {struct format} : M va_list :=
  match format with
  | EmptyString => ret args
  | String c rest =>
      if (c =? char_NUL)%char then ret args
      else if (c =? "%")%char then
        match rest with
        | EmptyString => ret args
        | String f rest' =>
            if (f =? char_NUL)%char then ret args
            else
              args <- printFormat f args ;;
              print rest' args
        end
      else
        sink (print_char c) ;;
        print rest args
  end.

(** ** The severity gate and the decoration pipeline *)

(** [static const char levels[] = "FEWITV"]: seven bytes, the last one NUL. *)
Definition levels : list ascii :=
  ["F"; "E"; "W"; "I"; "T"; "V"; char_NUL]%char.

(** [levels[i]]; a read outside the array is undefined. *)
Definition levels_at (i : Z) : res ascii :=
  if (0 <=? i) && (i <? Z.of_nat (List.length levels)) then
    match nth_error levels (Z.to_nat i) with
    | Some c => Ok c
    | None => Fault TagOutOfBounds
    end
  else Fault TagOutOfBounds.

(** [template <class T> void printLevel(int level, bool cr, T msg, ...)] *)
Definition printLevel (level : Z) (cr : bool) (msg : string) (args : va_list) : M unit :=
  threshold <- get _level ;;
  if level >? threshold then ret tt
  else
    let level := if level <? THORLOG_LEVEL_SILENT then THORLOG_LEVEL_SILENT else level in
    prefix <- get _prefix ;;
    match prefix with
    | Some f => invoke f level
    | None => ret tt
    end ;;
    showLevel <- get _showLevel ;;
    when showLevel
      (tag <- lift (levels_at (level - 1)) ;;
       sink (print_char tag) ;;
       sink (print_str (Some ": "))) ;;
    print msg args ;;
    suffix <- get _suffix ;;
    match suffix with
    | Some f => invoke f level
    | None => ret tt
    end ;;
    when cr (sink (print_str (Some THORLOG_CR))).

(** *** The fourteen logging entry points *)

Definition fatal (msg : string) (args : va_list) : M unit :=
  printLevel THORLOG_LEVEL_FATAL false msg args.
Definition fatalln (msg : string) (args : va_list) : M unit :=
  printLevel THORLOG_LEVEL_FATAL true msg args.
Definition error (msg : string) (args : va_list) : M unit :=
  printLevel THORLOG_LEVEL_ERROR false msg args.
Definition errorln (msg : string) (args : va_list) : M unit :=
  printLevel THORLOG_LEVEL_ERROR true msg args.
Definition warning (msg : string) (args : va_list) : M unit :=
  printLevel THORLOG_LEVEL_WARNING false msg args.
Definition warningln (msg : string) (args : va_list) : M unit :=
  printLevel THORLOG_LEVEL_WARNING true msg args.
Definition notice (msg : string) (args : va_list) : M unit :=
  printLevel THORLOG_LEVEL_NOTICE false msg args.
Definition noticeln (msg : string) (args : va_list) : M unit :=
  printLevel THORLOG_LEVEL_NOTICE true msg args.
Definition info (msg : string) (args : va_list) : M unit :=
  printLevel THORLOG_LEVEL_INFO false msg args.
Definition infoln (msg : string) (args : va_list) : M unit :=
  printLevel THORLOG_LEVEL_INFO true msg args.
Definition trace (msg : string) (args : va_list) : M unit :=
  printLevel THORLOG_LEVEL_TRACE false msg args.
Definition traceln (msg : string) (args : va_list) : M unit :=
  printLevel THORLOG_LEVEL_TRACE true msg args.
Definition verbose (msg : string) (args : va_list) : M unit :=
  printLevel THORLOG_LEVEL_VERBOSE false msg args.
Definition verboseln (msg : string) (args : va_list) : M unit :=
  printLevel THORLOG_LEVEL_VERBOSE true msg args.

End Engine.

(** ** The C library's [printf] conversions used by the adapter

    [printf] belongs to the platform's C library.  The conversions the
    adapter relies on are written out after the C standard: [%lu] and [%lx]
    print an unsigned value in base 10 and 16 without leading zeros (the
    value zero as one digit [0]), with the letters [abcdef]; [%ld] prints a
    minus sign and the magnitude for a negative value; [%c] prints the
    character and [%s] the characters of the string up to its NUL. *)
Module libc.

Definition digit_char (d : Z) : ascii :=
  if d <? 10 then ascii_of_N (Z.to_N (48 + d)) else ascii_of_N (Z.to_N (87 + d)).

Fixpoint utoa_loop (base : Z) (fuel : nat) (v : Z) (acc : string) : string :=
  match fuel with
  | O => acc
  | S fuel' =>
      let acc' := String (digit_char (v mod base)) acc in
      if v / base =? 0 then acc' else utoa_loop base fuel' (v / base) acc'
  end.

(** A positive value has at most [log2 v + 1] digits in any base. *)
Definition utoa (base v : Z) : string :=
  utoa_loop base (S (Z.to_nat (Z.log2 v))) v "".

Definition printf_lu (v : Z) : string := utoa 10 v.
Definition printf_lx (v : Z) : string := utoa 16 v.
Definition printf_ld (v : Z) : string :=
  if v <? 0 then String "-" (utoa 10 (- v)) else utoa 10 v.
Definition printf_c (c : ascii) : string := String c "".

Fixpoint printf_s (s : string) : string :=
  match s with
  | EmptyString => EmptyString
  | String c rest => if (c =? char_NUL)%char then EmptyString else String c (printf_s rest)
  end.

End libc.

(** ** The adapter [EspIdfPrint]

    Every member writes to the standard output and returns the number of
    characters written.  A member is modelled by the characters it writes;
    the count it returns is their number, and the engine never reads it. *)
Module EspIdfPrint.
Section Adapter.
Context `{Platform}.

(** The C library's rendering of a [double] under [%.2f]. *)
Variable printf_2f : double -> string.

(** [size_t print(char c)] *)
Definition print_c (c : ascii) : string := libc.printf_c c.

(** [size_t print(const char* str)] *)
Definition print_s (str : option string) : string :=
  match str with
  | None => ""
  | Some s => libc.printf_s s
  end.

(** The digits the loop of [printBinary] stores: [buffer] is the part of the
    array from [pos] up to its NUL at index 64. *)
Fixpoint printBinary_loop (pos : nat) (num : Z) (buffer : string) : string :=
  match pos with
  | O => buffer
  | S pos' =>
      if num >? 0 then
        printBinary_loop pos' (Z.shiftr num 1)
          (String (if Z.land num 1 =? 0 then "0"%char else "1"%char) buffer)
      else buffer
  end.

(** [size_t printBinary(unsigned long num)] *)
Definition printBinary (num : Z) : string :=
  if num =? 0 then print_c "0"
  else print_s (Some (printBinary_loop 64 num "")).

(** [size_t printSignedLong(long num, int base)] *)
Definition printSignedLong (num base : Z) : string :=
  if base =? THORLOG_DEC then libc.printf_ld num
  else if base =? THORLOG_HEX then
    (if num <? 0 then libc.printf_lx (to_unsigned long_bits num)
     else libc.printf_lx num)
  else if base =? THORLOG_BIN then printBinary (to_unsigned long_bits num)
  else libc.printf_ld num.

(** [size_t printUnsignedLong(unsigned long num, int base)] *)
Definition printUnsignedLong (num base : Z) : string :=
  if base =? THORLOG_DEC then libc.printf_lu num
  else if base =? THORLOG_HEX then libc.printf_lx num
  else if base =? THORLOG_BIN then printBinary num
  else libc.printf_lu num.

(** [size_t print(int num, int base)] *)
Definition print_i (num base : Z) : string :=
  printSignedLong (to_signed long_bits num) base.

(** [size_t print(long num, int base)] *)
Definition print_l (num base : Z) : string :=
  printSignedLong num base.

(** [size_t print(unsigned int num, int base)] *)
Definition print_u (num base : Z) : string :=
  printUnsignedLong (to_unsigned long_bits num) base.

(** [size_t print(unsigned long num, int base)] *)
Definition print_ul (num base : Z) : string :=
  printUnsignedLong num base.

(** [size_t print(double num)] *)
Definition print_d (num : double) : string := printf_2f num.

(** The virtual dispatch: what a call on the interface writes. *)
Definition print (c : ThorPrint_call) : string :=
  match c with
  | print_char ch => print_c ch
  | print_str str => print_s str
  | print_int num base => print_i num base
  | print_uint num base => print_u num base
  | print_long num base => print_l num base
  | print_ulong num base => print_ul num base
  | print_double num => print_d num
  end.

(** The standard output after a sequence of calls. *)
Fixpoint stdout (calls : list ThorPrint_call) : string :=
  match calls with
  | [] => ""
  | c :: rest => print c +:+ stdout rest
  end.

End Adapter.
End EspIdfPrint.

(** The calls the engine itself made on the sink, in order. *)
Fixpoint sink_calls (t : events) : list ThorPrint_call :=
  match t with
  | [] => []
  | Call _ c :: rest => c :: sink_calls rest
  | Invoke _ _ _ :: rest => sink_calls rest
  end.

(** What a computation made the adapter write, when it returned. *)
Definition stdout_of `{Platform} {A : Type} (printf_2f : double -> string)
    (r : res (A * ThorLogging * events)) : option string :=
  match r with
  | Ok (_, _, t) => Some (EspIdfPrint.stdout printf_2f (sink_calls t))
  | Fault _ => None
  end.

(** The two data models the library is built for. *)
Definition ILP32 : Platform := {| long_bits := 32 |}.
Definition LP64 : Platform := {| long_bits := 64 |}.

(** ** The public interface, as data

    The fourteen logging entry points are indexed by a severity name and by
    the newline flag; [log] selects the member function. *)
Inductive severity : Type :=
| Fatal | Error | Warning | Notice | Info | Trace | Verbose.

Definition level_of (s : severity) : Z :=
  match s with
  | Fatal => THORLOG_LEVEL_FATAL
  | Error => THORLOG_LEVEL_ERROR
  | Warning => THORLOG_LEVEL_WARNING
  | Notice => THORLOG_LEVEL_NOTICE
  | Info => THORLOG_LEVEL_INFO
  | Trace => THORLOG_LEVEL_TRACE
  | Verbose => THORLOG_LEVEL_VERBOSE
  end.

Definition log `{Platform} (s : severity) (ln : bool) : string -> va_list -> M unit :=
  match s, ln with
  | Fatal, false => fatal
  | Fatal, true => fatalln
  | Error, false => error
  | Error, true => errorln
  | Warning, false => warning
  | Warning, true => warningln
  | Notice, false => notice
  | Notice, true => noticeln
  | Info, false => info
  | Info, true => infoln
  | Trace, false => trace
  | Trace, true => traceln
  | Verbose, false => verbose
  | Verbose, true => verboseln
  end.

(** A call of a public member of [ThorLogging]. *)
Inductive api_call : Type :=
| Call_begin (level : Z) (output : option sink_ref) (showLevel : bool)
| Call_setLevel (level : Z)
| Call_getLevel
| Call_setShowLevel (showLevel : bool)
| Call_getShowLevel
| Call_setPrefix (f : option hook_ref)
| Call_clearPrefix
| Call_setSuffix (f : option hook_ref)
| Call_clearSuffix
| Call_log (s : severity) (ln : bool) (msg : string) (args : va_list).

Definition run_api `{Platform} (c : api_call) : M unit :=
  match c with
  | Call_begin level output showLevel => begin level output showLevel
  | Call_setLevel level => setLevel level
  | Call_getLevel => getLevel ;; ret tt
  | Call_setShowLevel showLevel => setShowLevel showLevel
  | Call_getShowLevel => getShowLevel ;; ret tt
  | Call_setPrefix f => setPrefix f
  | Call_clearPrefix => clearPrefix
  | Call_setSuffix f => setSuffix f
  | Call_clearSuffix => clearSuffix
  | Call_log s ln msg args => log s ln msg args
  end.

Definition is_configuration (c : api_call) : bool :=
  match c with
  | Call_begin _ _ _ | Call_setLevel _ | Call_setShowLevel _
  | Call_setPrefix _ | Call_clearPrefix | Call_setSuffix _ | Call_clearSuffix => true
  | Call_getLevel | Call_getShowLevel | Call_log _ _ _ _ => false
  end.


(** * Vocabulary of the statements *)

(** The level tag, as a table from the level. *)
Definition level_tag (level : Z) : ascii :=
  match level with
  | 1 => "F"
  | 2 => "E"
  | 3 => "W"
  | 4 => "I"
  | 5 => "T"
  | 6 => "V"
  | _ => char_NUL
  end%char.

Definition tag_of (s : severity) : ascii :=
  match s with
  | Fatal => "F"
  | Error => "E"
  | Warning => "W"
  | Notice => "I"
  | Info => "I"
  | Trace => "T"
  | Verbose => "V"
  end%char.

(** The events around the body of an emitted call, on the sink [p]. *)
Definition prefix_events (this : ThorLogging) (p : sink_ref) (level : Z) : events :=
  match _prefix this with
  | Some f => [Invoke f (Some p) level]
  | None => []
  end.

Definition tag_events (this : ThorLogging) (p : sink_ref) (level : Z) : events :=
  if _showLevel this
  then [Call p (print_char (level_tag level)); Call p (print_str (Some ": "))]
  else [].

Definition suffix_events (this : ThorLogging) (p : sink_ref) (level : Z) : events :=
  match _suffix this with
  | Some f => [Invoke f (Some p) level]
  | None => []
  end.

Definition terminator_events (p : sink_ref) (cr : bool) : events :=
  if cr then [Call p (print_str (Some THORLOG_CR))] else [].

Definition emitted (this : ThorLogging) (p : sink_ref) (level : Z) (cr : bool)
    (body : events) : events :=
  prefix_events this p level ++ tag_events this p level ++ body
    ++ suffix_events this p level ++ terminator_events p cr.

(** The conversion specifiers [printFormat] tests for. *)
Definition recognized (c : ascii) : bool :=
  existsb (Ascii.eqb c) (list_ascii_of_string "%scCdiluxXbBtTDFp").

(** The scan of [format] stops on a ['%'] that is the last character of the
    string and is not itself the specifier of a ['%'] before it. *)
Fixpoint ends_in_lone_percent (format : string) : bool :=
  match format with
  | EmptyString => false
  | String c rest =>
      if (c =? char_NUL)%char then false
      else if (c =? "%")%char then
        match rest with
        | EmptyString => true
        | String f rest' =>
            if (f =? char_NUL)%char then false else ends_in_lone_percent rest'
        end
      else ends_in_lone_percent rest
  end.

(** [keeps_this m]: when [m] returns, the object is as it was; and [m] never
    stops on a read outside the level table. *)
Definition keeps_this {A : Type} (m : M A) : Prop :=
  forall this,
    match m this with
    | Ok (_, this', _) => this' = this
    | Fault f => f <> TagOutOfBounds
    end.

(** The value of a digit character: [0-9] and the lowercase [a-f]; any
    other character has no value, which is marked by [-1]. *)
Definition digit_value (c : ascii) : Z :=
  let n := Z.of_N (N_of_ascii c) in
  if (48 <=? n) && (n <=? 57) then n - 48
  else if (97 <=? n) && (n <=? 102) then n - 87
  else -1.

Definition is_digit (base : Z) (c : ascii) : bool :=
  (0 <=? digit_value c) && (digit_value c <? base).

Fixpoint all_chars (P : ascii -> bool) (s : string) : bool :=
  match s with
  | EmptyString => true
  | String c rest => P c && all_chars P rest
  end.

(** The number a string of digits denotes, most significant digit first. *)
Fixpoint value_from (base : Z) (acc : Z) (s : string) : Z :=
  match s with
  | EmptyString => acc
  | String c rest => value_from base (acc * base + digit_value c) rest
  end.

Definition value_in_base (base : Z) (s : string) : Z := value_from base 0 s.

(** A numeral without padding: the single digit [0], or digits of the base
    that start with a digit other than [0]. *)
Definition unpadded (base : Z) (s : string) : bool :=
  all_chars (is_digit base) s &&
  match s with
  | EmptyString => false
  | String c EmptyString => true
  | String c _ => negb (c =? "0")%char
  end.

(** [prepend t r]: the result [r] of the rest of a computation, after the
    events [t]. *)
Definition prepend {A : Type} (t : events) (r : res (A * ThorLogging * events)) :
    res (A * ThorLogging * events) :=
  match r with
  | Ok (a, this, t') => Ok (a, this, t ++ t')
  | Fault f => Fault f
  end.

(** Engines used in the examples: all levels pass, sink number 0, no hook;
    with and without the level tag. *)
Definition engine_verbose : ThorLogging :=
  {| _level := THORLOG_LEVEL_VERBOSE;
     _showLevel := true;
     _logOutput := Some 0%nat;
     _prefix := None;
     _suffix := None |}.

Definition engine_untagged : ThorLogging :=
  {| _level := THORLOG_LEVEL_VERBOSE;
     _showLevel := false;
     _logOutput := Some 0%nat;
     _prefix := None;
     _suffix := None |}.

Definition engine_hooked : ThorLogging :=
  {| _level := THORLOG_LEVEL_WARNING;
     _showLevel := true;
     _logOutput := Some 0%nat;
     _prefix := Some 1%nat;
     _suffix := Some 2%nat |}.

(** * Vocabulary of the further properties *)

(** A program that uses the engine: a sequence of calls of public members,
    run one after the other on the same object. *)
Fixpoint run_calls `{Platform} (cs : list api_call) : M unit :=
  match cs with
  | [] => ret tt
  | c :: rest => run_api c ;; run_calls rest
  end.

(** [emits m a calls]: on every engine whose sink is not null, [m] returns
    [a], leaves the engine as it was, and makes exactly the calls [calls] on
    that sink, and no other event. *)
Definition emits {A : Type} (m : M A) (a : A) (calls : list ThorPrint_call) : Prop :=
  forall (this : ThorLogging) (p : sink_ref),
    _logOutput this = Some p -> m this = Ok (a, this, map (Call p) calls).

(** The class of variadic argument a specifier reads, if it reads one; the
    tests are those of [printFormat], in its order. *)
Inductive arg_class : Type :=
| IntegerArg
| DoubleArg
| StringArg
| PointerArg.

Definition class_of_slot (v : va_slot) : arg_class :=
  match v with
  | VInteger _ => IntegerArg
  | VDouble _ => DoubleArg
  | VString _ => StringArg
  | VPointer _ => PointerArg
  end.

Definition arg_class_eqb (k1 k2 : arg_class) : bool :=
  match k1, k2 with
  | IntegerArg, IntegerArg | DoubleArg, DoubleArg
  | StringArg, StringArg | PointerArg, PointerArg => true
  | _, _ => false
  end.

Definition specifier_class (f : ascii) : option arg_class :=
  if (f =? "%")%char then None
  else if (f =? "s")%char then Some StringArg
  else if (f =? "c")%char then Some IntegerArg
  else if (f =? "C")%char then Some IntegerArg
  else if (f =? "d")%char || (f =? "i")%char then Some IntegerArg
  else if (f =? "l")%char then Some IntegerArg
  else if (f =? "u")%char then Some IntegerArg
  else if (f =? "x")%char then Some IntegerArg
  else if (f =? "X")%char then Some IntegerArg
  else if (f =? "b")%char then Some IntegerArg
  else if (f =? "B")%char then Some IntegerArg
  else if (f =? "t")%char then Some IntegerArg
  else if (f =? "T")%char then Some IntegerArg
  else if (f =? "D")%char || (f =? "F")%char then Some DoubleArg
  else if (f =? "p")%char then Some PointerArg
  else None.

(** The arguments fit the format: each specifier that reads an argument,
    met in the scan of the format, finds a next argument of its class. *)
Fixpoint args_match (format : string) (args : va_list) {struct format} : bool :=
  match format with
  | EmptyString => true
  | String c rest =>
      if (c =? char_NUL)%char then true
      else if (c =? "%")%char then
        match rest with
        | EmptyString => true
        | String f rest' =>
            if (f =? char_NUL)%char then true
            else
              match specifier_class f with
              | None => args_match rest' args
              | Some k =>
                  match args with
                  | [] => false
                  | a :: args' => arg_class_eqb (class_of_slot a) k && args_match rest' args'
                  end
              end
        end
      else args_match rest args
  end.

(** The number of arguments the scan of the format reads. *)
Fixpoint directives (format : string) : nat :=
  match format with
  | EmptyString => O
  | String c rest =>
      if (c =? char_NUL)%char then O
      else if (c =? "%")%char then
        match rest with
        | EmptyString => O
        | String f rest' =>
            if (f =? char_NUL)%char then O
            else
              match specifier_class f with
              | None => directives rest'
              | Some _ => S (directives rest')
              end
        end
      else directives rest
  end.

(** A character that is copied to the sink as it is. *)
Definition plain (c : ascii) : bool :=
  negb (c =? "%")%char && negb (c =? char_NUL)%char.

Definition not_nul (c : ascii) : bool := negb (c =? char_NUL)%char.

(** The number a decimal numeral with an optional minus sign denotes. *)
Definition decimal_value (s : string) : Z :=
  match s with
  | EmptyString => 0
  | String c rest =>
      if (c =? "-")%char then - value_in_base 10 rest else value_in_base 10 s
  end.

(** The engine with one field replaced. *)
Definition with_level (this : ThorLogging) (level : Z) : ThorLogging :=
  {| _level := level; _showLevel := _showLevel this; _logOutput := _logOutput this;
     _prefix := _prefix this; _suffix := _suffix this |}.

Definition with_prefix (this : ThorLogging) (f : option hook_ref) : ThorLogging :=
  {| _level := _level this; _showLevel := _showLevel this; _logOutput := _logOutput this;
     _prefix := f; _suffix := _suffix this |}.

Definition with_suffix (this : ThorLogging) (f : option hook_ref) : ThorLogging :=
  {| _level := _level this; _showLevel := _showLevel this; _logOutput := _logOutput this;
     _prefix := _prefix this; _suffix := f |}.

(** * Properties *)

(** ** Computations that leave [this] alone *)

Lemma keeps_this_ret {A : Type} (a : A) : keeps_this (ret a).
Proof. intros this. reflexivity. Qed.

Lemma keeps_this_get {A : Type} (field : ThorLogging -> A) : keeps_this (get field).
Proof. intros this. reflexivity. Qed.

Lemma keeps_this_sink (c : ThorPrint_call) : keeps_this (sink c).
Proof.
  intros this. unfold sink. destruct (_logOutput this); [reflexivity | discriminate].
Qed.

Lemma keeps_this_invoke (f : hook_ref) (level : Z) : keeps_this (invoke f level).
Proof. intros this. reflexivity. Qed.

Lemma keeps_this_bind {A B : Type} (m : M A) (k : A -> M B) :
  keeps_this m -> (forall a, keeps_this (k a)) -> keeps_this (bind m k).
Proof.
  intros Hm Hk this. unfold bind.
  specialize (Hm this). destruct (m this) as [[[a this1] t1] | f]; [ | exact Hm].
  subst this1. specialize (Hk a this).
  destruct (k a this) as [[[b this2] t2] | f]; exact Hk.
Qed.

Lemma keeps_this_when (b : bool) (m : M unit) :
  keeps_this m -> keeps_this (when b m).
Proof. intros Hm. destruct b; [exact Hm | apply keeps_this_ret]. Qed.

Lemma keeps_this_va_arg_integer (conv : Z -> Z) (args : va_list) :
  keeps_this (lift (va_arg_integer conv args)).
Proof.
  intros this. destruct args as [ | [v | d | s | a] rest]; simpl; try discriminate; reflexivity.
Qed.

Lemma keeps_this_va_arg_double (args : va_list) : keeps_this (lift (va_arg_double args)).
Proof.
  intros this. destruct args as [ | [v | d | s | a] rest]; simpl; try discriminate; reflexivity.
Qed.

Lemma keeps_this_va_arg_string (args : va_list) : keeps_this (lift (va_arg_string args)).
Proof.
  intros this. destruct args as [ | [v | d | s | a] rest]; simpl; try discriminate; reflexivity.
Qed.

Lemma keeps_this_va_arg_pointer (args : va_list) : keeps_this (lift (va_arg_pointer args)).
Proof.
  intros this. destruct args as [ | [v | d | s | a] rest]; simpl; try discriminate; reflexivity.
Qed.

Lemma keeps_this_lift_Ok {A : Type} (a : A) : keeps_this (lift (Ok a)).
Proof. intros this. reflexivity. Qed.

Create HintDb thorlog discriminated.
#[export] Hint Resolve keeps_this_lift_Ok keeps_this_ret keeps_this_get keeps_this_sink keeps_this_invoke
  keeps_this_va_arg_integer keeps_this_va_arg_double
  keeps_this_va_arg_string keeps_this_va_arg_pointer : thorlog.

(** Walks down a computation built from the primitives above. *)
Ltac keeps_this_step :=
  match goal with
  | |- keeps_this (bind _ _) => apply keeps_this_bind; [ | intros ]
  | |- keeps_this (when _ _) => apply keeps_this_when
  | |- keeps_this (match ?x with (_, _) => _ end) => destruct x
  | |- keeps_this (if ?b then _ else _) => destruct b
  | |- keeps_this (match ?x with Some _ => _ | None => _ end) => destruct x
  | |- keeps_this _ => solve [ auto with thorlog ]
  end.

Section EngineFacts.
Context `{Platform}.

Lemma keeps_this_printFormat (format : ascii) (args : va_list) :
  keeps_this (printFormat format args).
Proof.
  unfold printFormat, va_arg_int, va_arg_unsigned_int, va_arg_long, va_arg_unsigned_long.
  repeat keeps_this_step.
Qed.

(** The loop of [print] advances by one or by two characters; facts about
    it are proved for a string and for the string with one more character
    in front, together. *)
Lemma string_pair_ind (P : string -> Prop) :
  P "" ->
  (forall c, P (String c "")) ->
  (forall c1 c2 s, P s -> P (String c2 s) -> P (String c1 (String c2 s))) ->
  forall s, P s.
Proof.
  intros H0 H1 H2 s.
  assert (Hboth : P s /\ forall c, P (String c s)).
  { induction s as [ | c s [IHs IHcs]].
    - split; [exact H0 | exact H1].
    - split; [apply IHcs | intros c'; apply H2; [exact IHs | apply IHcs]]. }
  apply Hboth.
Qed.

Lemma keeps_this_print (format : string) :
  forall args, keeps_this (print format args).
Proof.
  induction format as [ | c | c f rest IHrest IHfrest] using string_pair_ind; intros args.
  - apply keeps_this_ret.
  - simpl. repeat keeps_this_step.
  - change (print (String c (String f rest)) args) with
      (if (c =? char_NUL)%char then ret args
       else if (c =? "%")%char then
         (if (f =? char_NUL)%char then ret args
          else bind (printFormat f args) (fun args' => print rest args'))
       else bind (sink (print_char c)) (fun _ => print (String f rest) args)).
    repeat first [ apply keeps_this_printFormat | apply IHrest | apply IHfrest | keeps_this_step ].
Qed.

Lemma levels_at_public (level : Z) :
  1 <= level <= 6 -> exists tag, levels_at (level - 1) = Ok tag.
Proof.
  intros Hl.
  assert (Hc : level = 1 \/ level = 2 \/ level = 3 \/ level = 4 \/ level = 5 \/ level = 6) by lia.
  destruct Hc as [-> | [-> | [-> | [-> | [-> | ->]]]]]; eexists; reflexivity.
Qed.

Lemma keeps_this_printLevel (level : Z) (cr : bool) (msg : string) (args : va_list) :
  1 <= level <= 6 -> keeps_this (printLevel level cr msg args).
Proof.
  intros Hl. unfold printLevel.
  apply keeps_this_bind; [apply keeps_this_get | intros threshold].
  destruct (level >? threshold); [apply keeps_this_ret | ].
  replace (level <? THORLOG_LEVEL_SILENT) with false
    by (symmetry; apply Z.ltb_ge; unfold THORLOG_LEVEL_SILENT; lia).
  destruct (levels_at_public level Hl) as [tag Htag]. rewrite Htag.
  repeat first [ apply keeps_this_print | keeps_this_step ].
Qed.

Lemma keeps_this_log (s : severity) (ln : bool) (msg : string) (args : va_list) :
  keeps_this (log s ln msg args).
Proof.
  destruct s, ln; simpl;
    unfold fatal, fatalln, error, errorln, warning, warningln, notice, noticeln,
      info, infoln, trace, traceln, verbose, verboseln;
    apply keeps_this_printLevel; cbv; split; discriminate.
Qed.

End EngineFacts.

(** ** Running a computation step by step *)

Lemma bind_Ok {A B : Type} (m : M A) (k : A -> M B) (this this1 : ThorLogging)
    (a : A) (t1 : events) :
  m this = Ok (a, this1, t1) -> bind m k this = prepend t1 (k a this1).
Proof. intros Hm. unfold bind. rewrite Hm. reflexivity. Qed.

Lemma prepend_nil {A : Type} (r : res (A * ThorLogging * events)) : prepend [] r = r.
Proof. destruct r as [[[a this] t] | f]; reflexivity. Qed.

Lemma bind_ret {A B : Type} (a : A) (k : A -> M B) (this : ThorLogging) :
  bind (ret a) k this = k a this.
Proof. rewrite (bind_Ok _ _ this this a []) by reflexivity. apply prepend_nil. Qed.

Lemma bind_get {A B : Type} (field : ThorLogging -> A) (k : A -> M B) (this : ThorLogging) :
  bind (get field) k this = k (field this) this.
Proof. rewrite (bind_Ok _ _ this this (field this) []) by reflexivity. apply prepend_nil. Qed.

Lemma bind_lift_Ok {A B : Type} (a : A) (k : A -> M B) (this : ThorLogging) :
  bind (lift (Ok a)) k this = k a this.
Proof. rewrite (bind_Ok _ _ this this a []) by reflexivity. apply prepend_nil. Qed.

Lemma sink_Ok (c : ThorPrint_call) (this : ThorLogging) (p : sink_ref) :
  _logOutput this = Some p -> sink c this = Ok (tt, this, [Call p c]).
Proof. intros Hs. unfold sink. rewrite Hs. reflexivity. Qed.

Lemma bind_sink {B : Type} (c : ThorPrint_call) (k : unit -> M B) (this : ThorLogging)
    (p : sink_ref) :
  _logOutput this = Some p -> bind (sink c) k this = prepend [Call p c] (k tt this).
Proof. intros Hs. apply bind_Ok. apply sink_Ok. exact Hs. Qed.

Lemma bind_invoke {B : Type} (f : hook_ref) (level : Z) (k : unit -> M B)
    (this : ThorLogging) :
  bind (invoke f level) k this = prepend [Invoke f (_logOutput this) level] (k tt this).
Proof. apply bind_Ok. reflexivity. Qed.

(** ** The gate and the pipeline of [printLevel] *)

Section Pipeline.
Context `{Platform}.

Lemma print_this (format : string) (args args' : va_list) (this this' : ThorLogging)
    (body : events) :
  print format args this = Ok (args', this', body) -> this' = this.
Proof.
  intros Hp. pose proof (keeps_this_print format args this) as Hk.
  rewrite Hp in Hk. exact Hk.
Qed.

Lemma levels_at_tag (level : Z) :
  1 <= level <= 6 -> levels_at (level - 1) = Ok (level_tag level).
Proof.
  intros Hl.
  assert (Hc : level = 1 \/ level = 2 \/ level = 3 \/ level = 4 \/ level = 5 \/ level = 6) by lia.
  destruct Hc as [-> | [-> | [-> | [-> | [-> | ->]]]]]; reflexivity.
Qed.

(** A call above the threshold returns at once. *)
Lemma printLevel_gated (this : ThorLogging) (level : Z) (cr : bool) (msg : string)
    (args : va_list) :
  _level this < level -> printLevel level cr msg args this = Ok (tt, this, []).
Proof.
  intros Hgt. unfold printLevel. rewrite bind_get.
  replace (level >? _level this) with true by (symmetry; apply Z.gtb_lt; lia).
  reflexivity.
Qed.

(** A call of a defined severity at or below the threshold, on a sink that
    is not null and with a body that is interpreted without fault, runs the
    whole pipeline. *)
Lemma printLevel_emitted (this : ThorLogging) (level : Z) (cr : bool) (msg : string)
    (args args' : va_list) (p : sink_ref) (this' : ThorLogging) (body : events) :
  1 <= level <= 6 ->
  level <= _level this ->
  _logOutput this = Some p ->
  print msg args this = Ok (args', this', body) ->
  printLevel level cr msg args this = Ok (tt, this, emitted this p level cr body).
Proof.
  intros Hl Hle Hsink Hprint.
  assert (this' = this) by (eapply print_this; eassumption). subst this'.
  unfold printLevel, emitted, prefix_events, tag_events, suffix_events, terminator_events.
  rewrite bind_get.
  replace (level >? _level this) with false
    by (symmetry; rewrite Z.gtb_ltb; apply Z.ltb_ge; lia).
  replace (level <? THORLOG_LEVEL_SILENT) with false
    by (symmetry; apply Z.ltb_ge; unfold THORLOG_LEVEL_SILENT; lia).
  rewrite (levels_at_tag level Hl), bind_get.
  assert (Hpre : forall k : unit -> M unit,
    bind (match _prefix this with Some f => invoke f level | None => ret tt end) k this
    = prepend (match _prefix this with Some f => [Invoke f (Some p) level] | None => [] end)
        (k tt this)).
  { intros k. destruct (_prefix this);
      [rewrite bind_invoke, Hsink | rewrite bind_ret, prepend_nil]; reflexivity. }
  rewrite Hpre, bind_get.
  assert (Htag : forall k : unit -> M unit,
    bind (when (_showLevel this)
            (tag <- lift (Ok (level_tag level)) ;;
             sink (print_char tag) ;; sink (print_str (Some ": ")))) k this
    = prepend (if _showLevel this
               then [Call p (print_char (level_tag level)); Call p (print_str (Some ": "))]
               else []) (k tt this)).
  { intros k. destruct (_showLevel this); unfold when.
    - apply bind_Ok. rewrite bind_lift_Ok, (bind_sink _ _ _ p Hsink), (sink_Ok _ _ p Hsink).
      reflexivity.
    - rewrite bind_ret, prepend_nil. reflexivity. }
  rewrite Htag, (bind_Ok _ _ _ _ _ _ Hprint), bind_get.
  assert (Hsuf : forall k : unit -> M unit,
    bind (match _suffix this with Some f => invoke f level | None => ret tt end) k this
    = prepend (match _suffix this with Some f => [Invoke f (Some p) level] | None => [] end)
        (k tt this)).
  { intros k. destruct (_suffix this);
      [rewrite bind_invoke, Hsink | rewrite bind_ret, prepend_nil]; reflexivity. }
  rewrite Hsuf.
  assert (Hcr : when cr (sink (print_str (Some THORLOG_CR))) this
                = Ok (tt, this, if cr then [Call p (print_str (Some THORLOG_CR))] else [])).
  { destruct cr; unfold when; [apply sink_Ok; exact Hsink | reflexivity]. }
  rewrite Hcr. reflexivity.
Qed.

End Pipeline.

(** ** The severity gate *)

Section Gate.
Context `{Platform}.

Lemma sink_calls_app (t1 t2 : events) :
  sink_calls (t1 ++ t2) = sink_calls t1 ++ sink_calls t2.
Proof.
  induction t1 as [ | [p c | f o l] t1 IH]; simpl; [ | rewrite IH | ]; auto.
Qed.

(** C1, as amended.  For a severity [L] in [1, 6] and a threshold in [0, 6]:
    a call above the threshold is a complete no-op (it returns with no event
    at all: no write, no hook invocation, no tag, no terminator, and the
    engine as it was); a call at or below the threshold, on a sink that is
    not null and with a body the interpreter accepts, runs the whole
    pipeline, and it writes to the sink whenever the level tag is shown or
    the call is a newline variant; and whatever the call, a write or a hook
    invocation happens only if [L <= T]. *)
Theorem C1_severity_gate (this : ThorLogging) (L : Z) (cr : bool) (msg : string)
    (args : va_list) :
  1 <= L <= 6 ->
  0 <= _level this <= 6 ->
  (_level this < L -> printLevel L cr msg args this = Ok (tt, this, [])) /\
  (L <= _level this ->
   forall (p : sink_ref) (args' : va_list) (this' : ThorLogging) (body : events),
     _logOutput this = Some p ->
     print msg args this = Ok (args', this', body) ->
     printLevel L cr msg args this = Ok (tt, this, emitted this p L cr body) /\
     (_showLevel this = true \/ cr = true ->
      sink_calls (emitted this p L cr body) <> [])) /\
  (forall (this' : ThorLogging) (t : events),
     printLevel L cr msg args this = Ok (tt, this', t) ->
     t <> [] -> L <= _level this).
Proof.
  intros HL HT. split; [ | split].
  - apply printLevel_gated.
  - intros Hle p args' this' body Hsink Hprint. split.
    + eapply printLevel_emitted; eassumption.
    + unfold emitted, tag_events, terminator_events.
      rewrite !sink_calls_app. intros [Hshow | Hcr] Hnil.
      * rewrite Hshow in Hnil. simpl in Hnil.
        apply app_eq_nil in Hnil. destruct Hnil as [_ Hnil]. discriminate Hnil.
      * subst cr. simpl in Hnil.
        repeat (apply app_eq_nil in Hnil; destruct Hnil as [_ Hnil]). discriminate Hnil.
  - intros this' t Hrun Hne.
    destruct (Z.lt_ge_cases (_level this) L) as [Hlt | Hge]; [ | exact Hge].
    rewrite (printLevel_gated this L cr msg args Hlt) in Hrun.
    injection Hrun as _ Ht. symmetry in Ht. contradiction.
Qed.

End Gate.

(** The gate at a concrete engine: threshold WARNING, both hooks set. *)
Lemma C1_severity_gate_witness :
  (_level engine_hooked < 2 ->
   @printLevel ILP32 2 true "x" [] engine_hooked = Ok (tt, engine_hooked, [])) /\
  (2 <= _level engine_hooked ->
   forall (p : sink_ref) (args' : va_list) (this' : ThorLogging) (body : events),
     _logOutput engine_hooked = Some p ->
     @print ILP32 "x" [] engine_hooked = Ok (args', this', body) ->
     @printLevel ILP32 2 true "x" [] engine_hooked
       = Ok (tt, engine_hooked, emitted engine_hooked p 2 true body) /\
     (_showLevel engine_hooked = true \/ true = true ->
      sink_calls (emitted engine_hooked p 2 true body) <> [])) /\
  (forall (this' : ThorLogging) (t : events),
     @printLevel ILP32 2 true "x" [] engine_hooked = Ok (tt, this', t) ->
     t <> [] -> 2 <= _level engine_hooked).
Proof.
  apply (@C1_severity_gate ILP32 engine_hooked 2 true "x" []);
    unfold engine_hooked, THORLOG_LEVEL_WARNING; simpl; lia.
Defined.

(** C1, as stated, fails: with the level tag switched off, no hook, an empty
    format and no newline, a call that passes the gate (INFO under the
    threshold VERBOSE) makes no write at all. *)
Lemma C1_emitted_call_without_output :
  THORLOG_LEVEL_INFO <= _level engine_untagged /\
  @info ILP32 "" [] engine_untagged = Ok (tt, engine_untagged, []) /\
  ~ (sink_calls [] <> [] <-> THORLOG_LEVEL_INFO <= _level engine_untagged).
Proof.
  split; [ | split].
  - discriminate.
  - reflexivity.
  - intros [_ Hwrites]. apply Hwrites; [discriminate | reflexivity].
Qed.


(** ** Clamping of the threshold *)

(** C4.  For every input [v], [begin] and [setLevel] store [v] clamped into
    [0, 6] (below 0 gives 0, above 6 gives 6, a value in range is kept), and
    [getLevel] then returns the stored value.  [begin] also stores the sink
    and the flag, [setLevel] nothing else. *)
Theorem C4_threshold_is_clamped (v : Z) (output : option sink_ref) (showLevel : bool)
    (this : ThorLogging) :
  let clamped := Z.max 0 (Z.min 6 v) in
  let begun := {| _level := clamped; _showLevel := showLevel; _logOutput := output;
                  _prefix := _prefix this; _suffix := _suffix this |} in
  let set := {| _level := clamped; _showLevel := _showLevel this;
                _logOutput := _logOutput this;
                _prefix := _prefix this; _suffix := _suffix this |} in
  begin v output showLevel this = Ok (tt, begun, []) /\
  (begin v output showLevel ;; getLevel) this = Ok (clamped, begun, []) /\
  setLevel v this = Ok (tt, set, []) /\
  (setLevel v ;; getLevel) this = Ok (clamped, set, []) /\
  (v < 0 -> clamped = 0) /\
  (6 < v -> clamped = 6) /\
  (0 <= v <= 6 -> clamped = v).
Proof.
  assert (Hc : thorlog_constrain v THORLOG_LEVEL_SILENT THORLOG_LEVEL_VERBOSE
               = Z.max 0 (Z.min 6 v)).
  { unfold thorlog_constrain, THORLOG_LEVEL_SILENT, THORLOG_LEVEL_VERBOSE.
    destruct (Z.ltb_spec v 0); [lia | ].
    rewrite Z.gtb_ltb. destruct (Z.ltb_spec 6 v); lia. }
  cbv zeta.
  assert (Hb : begin v output showLevel this
               = Ok (tt, {| _level := Z.max 0 (Z.min 6 v); _showLevel := showLevel;
                            _logOutput := output; _prefix := _prefix this;
                            _suffix := _suffix this |}, [])).
  { unfold begin. rewrite bind_get. unfold put. rewrite Hc. reflexivity. }
  assert (Hs : setLevel v this
               = Ok (tt, {| _level := Z.max 0 (Z.min 6 v); _showLevel := _showLevel this;
                            _logOutput := _logOutput this; _prefix := _prefix this;
                            _suffix := _suffix this |}, [])).
  { unfold setLevel. rewrite bind_get. unfold put. rewrite Hc. reflexivity. }
  repeat split; try lia.
  - exact Hb.
  - rewrite (bind_Ok _ _ _ _ _ _ Hb). reflexivity.
  - exact Hs.
  - rewrite (bind_Ok _ _ _ _ _ _ Hs). reflexivity.
Qed.

(** ** The format interpreter: characters that are no specifier *)

Section Interpreter.
Context `{Platform}.

Lemma bind_ext {A B : Type} (m : M A) (k1 k2 : A -> M B) (this : ThorLogging) :
  (forall a this1, k1 a this1 = k2 a this1) -> bind m k1 this = bind m k2 this.
Proof.
  intros Hk. unfold bind. destruct (m this) as [[[a this1] t1] | f]; [ | reflexivity].
  rewrite Hk. reflexivity.
Qed.

(** One turn of the loop of [print] on a ['%'] followed by a character. *)
Lemma print_percent (f : ascii) (rest : string) (args : va_list) :
  f <> char_NUL ->
  print (String "%" (String f rest)) args
  = (args' <- printFormat f args ;; print rest args').
Proof.
  intros Hf. simpl. apply Ascii.eqb_neq in Hf. rewrite Hf. reflexivity.
Qed.

(** C2, as amended.  A character after ['%'] that is none of the specifiers
    [% s c C d i l u x X b B t T D F p] makes [printFormat] return without a
    single call on the sink and with the argument list untouched: the
    character is dropped, not forwarded; the scan goes on after it. *)
Theorem C2_unrecognized_specifier_is_dropped (c : ascii) :
  recognized c = false ->
  (forall (args : va_list) (this : ThorLogging),
     printFormat c args this = Ok (args, this, [])) /\
  (forall (rest : string) (args : va_list) (this : ThorLogging),
     c <> char_NUL ->
     print (String "%" (String c rest)) args this = print rest args this).
Proof.
  intros Hrec.
  assert (Hpf : forall args this, printFormat c args this = Ok (args, this, [])).
  { intros args this. unfold recognized in Hrec. simpl in Hrec.
    repeat (apply orb_false_iff in Hrec; destruct Hrec as [?Hc Hrec]).
    unfold printFormat.
    repeat match goal with
           | Hx : (c =? _)%char = false |- _ => rewrite Hx; clear Hx
           end.
    reflexivity. }
  split; [exact Hpf | ].
  intros rest args this Hnul.
  rewrite print_percent by exact Hnul.
  rewrite (bind_Ok _ _ _ _ _ _ (Hpf args this)). apply prepend_nil.
Qed.

(** C8.  When the scan of a format reaches a ['%'] that is the last
    character, the call behaves as on the format without that character:
    the same calls on the sink for what comes before, nothing written and no
    argument read for the ['%'], and the scan ends. *)
Theorem C8_trailing_percent (s : string) :
  forall (args : va_list) (this : ThorLogging),
    ends_in_lone_percent (s +:+ "%") = true ->
    print (s +:+ "%") args this = print s args this.
Proof.
  induction s as [ | c | c1 c2 s IHs IHc2s] using string_pair_ind; intros args this Hend.
  - reflexivity.
  - simpl in Hend |- *.
    destruct (c =? char_NUL)%char; [reflexivity | ].
    destruct (c =? "%")%char; [discriminate Hend | reflexivity].
  - change (String c1 (String c2 s) +:+ "%") with (String c1 (String c2 (s +:+ "%"))) in *.
    change (ends_in_lone_percent (String c1 (String c2 (s +:+ "%")))) with
      (if (c1 =? char_NUL)%char then false
       else if (c1 =? "%")%char then
         (if (c2 =? char_NUL)%char then false else ends_in_lone_percent (s +:+ "%"))
       else ends_in_lone_percent (String c2 (s +:+ "%"))) in Hend.
    change (print (String c1 (String c2 (s +:+ "%"))) args this) with
      ((if (c1 =? char_NUL)%char then ret args
        else if (c1 =? "%")%char then
          (if (c2 =? char_NUL)%char then ret args
           else bind (printFormat c2 args) (fun args' => print (s +:+ "%") args'))
        else bind (sink (print_char c1)) (fun _ => print (String c2 (s +:+ "%")) args))
       this).
    change (print (String c1 (String c2 s)) args this) with
      ((if (c1 =? char_NUL)%char then ret args
        else if (c1 =? "%")%char then
          (if (c2 =? char_NUL)%char then ret args
           else bind (printFormat c2 args) (fun args' => print s args'))
        else bind (sink (print_char c1)) (fun _ => print (String c2 s) args))
       this).
    destruct (c1 =? char_NUL)%char; [reflexivity | ].
    destruct (c1 =? "%")%char.
    + destruct (c2 =? char_NUL)%char; [reflexivity | ].
      apply bind_ext. intros args' this1. apply IHs. exact Hend.
    + apply bind_ext. intros _ this1. apply (IHc2s args this1). exact Hend.
Qed.

End Interpreter.

(** The format ["50%"]: two characters, then a lone ['%']. *)
Lemma C8_trailing_percent_witness :
  @print ILP32 ("50" +:+ "%") [VInteger 7] engine_verbose
  = @print ILP32 "50" [VInteger 7] engine_verbose.
Proof.
  apply (@C8_trailing_percent ILP32 "50" [VInteger 7] engine_verbose). reflexivity.
Defined.

(** The character ['q'] is no specifier. *)
Lemma C2_unrecognized_specifier_is_dropped_witness :
  (forall (args : va_list) (this : ThorLogging),
     @printFormat ILP32 "q" args this = Ok (args, this, [])) /\
  (forall (rest : string) (args : va_list) (this : ThorLogging),
     "q"%char <> char_NUL ->
     @print ILP32 (String "%" (String "q" rest)) args this = @print ILP32 rest args this).
Proof.
  apply (@C2_unrecognized_specifier_is_dropped ILP32 "q"). reflexivity.
Defined.

(** C2, as stated, fails: on ["%q"] the sink does not receive ['q']; it
    receives nothing. *)
Lemma C2_unrecognized_specifier_not_forwarded :
  recognized "q" = false /\
  @print ILP32 "%q" [] engine_verbose = Ok ([], engine_verbose, []) /\
  @printFormat ILP32 "q" [] engine_verbose
    <> Ok ([], engine_verbose, [Call 0%nat (print_char "q")]).
Proof.
  split; [reflexivity | split; [reflexivity | discriminate]].
Qed.

(** ** The fourteen entry points *)

Section EntryPoints.
Context `{Platform}.

Lemma log_printLevel (s : severity) (ln : bool) (msg : string) (args : va_list) :
  log s ln msg args = printLevel (level_of s) ln msg args.
Proof. destruct s, ln; reflexivity. Qed.

Lemma level_of_range (s : severity) : 1 <= level_of s <= 6.
Proof. destruct s; cbv; split; discriminate. Qed.

Lemma level_tag_of (s : severity) : level_tag (level_of s) = tag_of s.
Proof. destruct s; reflexivity. Qed.

(** C7.  For an emitted call of any severity whose body is interpreted
    without fault: the variant without newline ends with the suffix hook
    (when one is set) and writes nothing after it; the newline variant makes
    the same events and then exactly one more call on the sink, which prints
    the one-character string carriage return (not the pair CR LF). *)
Theorem C7_newline_terminator (this : ThorLogging) (s : severity) (msg : string)
    (args args' : va_list) (p : sink_ref) (this' : ThorLogging) (body : events) :
  level_of s <= _level this ->
  _logOutput this = Some p ->
  print msg args this = Ok (args', this', body) ->
  let before :=
    prefix_events this p (level_of s) ++ tag_events this p (level_of s) ++ body in
  let after := suffix_events this p (level_of s) in
  log s false msg args this = Ok (tt, this, before ++ after) /\
  log s true msg args this
    = Ok (tt, this, (before ++ after) ++ [Call p (print_str (Some (String "013" "")))]) /\
  (forall f, _suffix this = Some f -> after = [Invoke f (Some p) (level_of s)]) /\
  (_suffix this = None -> after = []) /\
  String.length THORLOG_CR = 1%nat /\
  THORLOG_CR <> THORLOG_NL /\
  (forall printf_2f, EspIdfPrint.print printf_2f (print_str (Some THORLOG_CR)) = String "013" "").
Proof.
  intros Hle Hsink Hprint before after.
  pose proof (level_of_range s) as Hrange.
  repeat split.
  - rewrite log_printLevel.
    rewrite (printLevel_emitted this (level_of s) false msg args args' p this' body)
      by assumption.
    unfold emitted, before, after, terminator_events.
    rewrite app_nil_r, <- !app_assoc. reflexivity.
  - rewrite log_printLevel.
    rewrite (printLevel_emitted this (level_of s) true msg args args' p this' body)
      by assumption.
    unfold emitted, before, after, terminator_events.
    rewrite <- !app_assoc. reflexivity.
  - intros f Hf. unfold after, suffix_events. rewrite Hf. reflexivity.
  - intros Hf. unfold after, suffix_events. rewrite Hf. reflexivity.
  - discriminate.
Qed.

(** C9.  A logging call that returns leaves every field of the engine as it
    was, and so do the two getters; hence a call of the public interface
    that changes the engine is one of [begin], [setLevel], [setShowLevel],
    [setPrefix], [clearPrefix], [setSuffix], [clearSuffix]; and each of these
    does change the engine from some state. *)
Theorem C9_logging_calls_are_read_only :
  (forall (s : severity) (ln : bool) (msg : string) (args : va_list)
          (this this' : ThorLogging) (t : events),
     log s ln msg args this = Ok (tt, this', t) ->
     this' = this /\
     _level this' = _level this /\ _showLevel this' = _showLevel this /\
     _logOutput this' = _logOutput this /\
     _prefix this' = _prefix this /\ _suffix this' = _suffix this) /\
  (forall (c : api_call) (this this' : ThorLogging) (t : events),
     run_api c this = Ok (tt, this', t) -> this' <> this -> is_configuration c = true) /\
  ((exists this this', begin 3 (Some 0%nat) true this = Ok (tt, this', []) /\ this' <> this) /\
   (exists this this', setLevel 3 this = Ok (tt, this', []) /\ this' <> this) /\
   (exists this this', setShowLevel false this = Ok (tt, this', []) /\ this' <> this) /\
   (exists this this', setPrefix (Some 1%nat) this = Ok (tt, this', []) /\ this' <> this) /\
   (exists this this', clearPrefix this = Ok (tt, this', []) /\ this' <> this) /\
   (exists this this', setSuffix (Some 1%nat) this = Ok (tt, this', []) /\ this' <> this) /\
   (exists this this', clearSuffix this = Ok (tt, this', []) /\ this' <> this)).
Proof.
  assert (Hlog : forall s ln msg args this this' t,
            log s ln msg args this = Ok (tt, this', t) -> this' = this).
  { intros s ln msg args this this' t Hrun.
    pose proof (keeps_this_log s ln msg args this) as Hk. rewrite Hrun in Hk. exact Hk. }
  split; [ | split].
  - intros s ln msg args this this' t Hrun.
    apply Hlog in Hrun. subst this'. repeat split.
  - intros c this this' t Hrun Hne.
    destruct c; try reflexivity; exfalso; apply Hne.
    + simpl in Hrun. unfold getLevel in Hrun. rewrite bind_get in Hrun.
      injection Hrun as Ht _. symmetry. exact Ht.
    + simpl in Hrun. unfold getShowLevel in Hrun. rewrite bind_get in Hrun.
      injection Hrun as Ht _. symmetry. exact Ht.
    + simpl in Hrun. eapply Hlog. exact Hrun.
  - repeat split;
      first [ exists ThorLogging_new; eexists; split; [reflexivity | discriminate]
            | exists engine_hooked; eexists; split; [reflexivity | discriminate] ].
Qed.

(** C10.  Each of the fourteen entry points passes a level in [1, 6], so
    the index [level - 1] lies in [0, 5], inside the six letters of
    ["FEWITV"]; the read of the table succeeds and gives the letter of the
    severity (the letter [I] for info and for notice alike); no call through
    an entry point ever stops on a read outside the table; and an emitted
    call with the tag shown writes that letter and [": "] right after the
    prefix hook. *)
Theorem C10_tag_lookup_in_bounds (s : severity) :
  1 <= level_of s <= 6 /\
  0 <= level_of s - 1 <= 5 /\
  nth_error (list_ascii_of_string "FEWITV") (Z.to_nat (level_of s - 1)) = Some (tag_of s) /\
  levels_at (level_of s - 1) = Ok (tag_of s) /\
  tag_of Info = "I"%char /\ tag_of Notice = "I"%char /\
  (forall (ln : bool) (msg : string) (args : va_list) (this : ThorLogging),
     log s ln msg args this <> Fault TagOutOfBounds) /\
  (forall (ln : bool) (msg : string) (args args' : va_list) (this this' : ThorLogging)
          (p : sink_ref) (body : events),
     level_of s <= _level this ->
     _showLevel this = true ->
     _logOutput this = Some p ->
     print msg args this = Ok (args', this', body) ->
     log s ln msg args this
     = Ok (tt, this,
           prefix_events this p (level_of s)
           ++ [Call p (print_char (tag_of s)); Call p (print_str (Some ": "))]
           ++ body ++ suffix_events this p (level_of s) ++ terminator_events p ln)).
Proof.
  pose proof (level_of_range s) as Hrange.
  repeat split; try lia.
  - destruct s; reflexivity.
  - destruct s; reflexivity.
  - intros ln msg args this Hfault.
    pose proof (keeps_this_log s ln msg args this) as Hk.
    rewrite Hfault in Hk. apply Hk. reflexivity.
  - intros ln msg args args' this this' p body Hle Hshow Hsink Hprint.
    rewrite log_printLevel.
    rewrite (printLevel_emitted this (level_of s) ln msg args args' p this' body)
      by assumption.
    unfold emitted, tag_events. rewrite Hshow, level_tag_of. reflexivity.
Qed.

End EntryPoints.

(** [warningln("x")] on an engine with threshold WARNING and both hooks. *)
Lemma C7_newline_terminator_witness :
  let this := engine_hooked in
  let before := prefix_events this 0%nat 3 ++ tag_events this 0%nat 3
                  ++ [Call 0%nat (print_char "x")] in
  let after := suffix_events this 0%nat 3 in
  @log ILP32 Warning false "x" [] this = Ok (tt, this, before ++ after) /\
  @log ILP32 Warning true "x" [] this
    = Ok (tt, this, (before ++ after) ++ [Call 0%nat (print_str (Some (String "013" "")))]) /\
  (forall f, _suffix this = Some f -> after = [Invoke f (Some 0%nat) 3]) /\
  (_suffix this = None -> after = []) /\
  String.length THORLOG_CR = 1%nat /\
  THORLOG_CR <> THORLOG_NL /\
  (forall printf_2f,
     @EspIdfPrint.print ILP32 printf_2f (print_str (Some THORLOG_CR)) = String "013" "").
Proof.
  apply (@C7_newline_terminator ILP32 engine_hooked Warning "x" [] [] 0%nat engine_hooked
           [Call 0%nat (print_char "x")]).
  - apply Z.le_refl.
  - reflexivity.
  - reflexivity.
Defined.

(** ** Strings *)

Lemma append_nil_r (s : string) : s +:+ "" = s.
Proof. induction s as [ | c s IH]; simpl; [ | rewrite IH]; reflexivity. Qed.

Lemma append_assoc (s1 s2 s3 : string) : (s1 +:+ s2) +:+ s3 = s1 +:+ (s2 +:+ s3).
Proof. induction s1 as [ | c s1 IH]; simpl; [ | rewrite IH]; reflexivity. Qed.

Lemma length_append (s1 s2 : string) :
  String.length (s1 +:+ s2) = (String.length s1 + String.length s2)%nat.
Proof. induction s1 as [ | c s1 IH]; simpl; [ | rewrite IH]; reflexivity. Qed.

Lemma all_chars_append (P : ascii -> bool) (s1 s2 : string) :
  all_chars P (s1 +:+ s2) = all_chars P s1 && all_chars P s2.
Proof.
  induction s1 as [ | c s1 IH]; simpl; [reflexivity | ].
  rewrite IH. apply andb_assoc.
Qed.

Lemma value_from_append (base acc : Z) (s1 s2 : string) :
  value_from base acc (s1 +:+ s2) = value_from base (value_from base acc s1) s2.
Proof.
  revert acc. induction s1 as [ | c s1 IH]; intros acc; simpl; [reflexivity | apply IH].
Qed.

(** ** The conversions of the C library *)

Module libc_facts.
Import libc.

Lemma digit_value_digit_char (d : Z) :
  0 <= d < 16 -> digit_value (digit_char d) = d.
Proof.
  intros Hd.
  assert (Hc : d = 0 \/ d = 1 \/ d = 2 \/ d = 3 \/ d = 4 \/ d = 5 \/ d = 6 \/ d = 7 \/
               d = 8 \/ d = 9 \/ d = 10 \/ d = 11 \/ d = 12 \/ d = 13 \/ d = 14 \/ d = 15)
    by lia.
  repeat (destruct Hc as [-> | Hc]; [reflexivity | ]). subst d. reflexivity.
Qed.

Lemma is_digit_digit_char (base d : Z) :
  base <= 16 -> 0 <= d < base -> is_digit base (digit_char d) = true.
Proof.
  intros Hb Hd. unfold is_digit. rewrite digit_value_digit_char by lia.
  apply andb_true_intro. split; [apply Z.leb_le | apply Z.ltb_lt]; lia.
Qed.

Lemma utoa_loop_S (base : Z) (fuel : nat) (v : Z) (acc : string) :
  utoa_loop base (S fuel) v acc
  = if v / base =? 0 then String (digit_char (v mod base)) acc
    else utoa_loop base fuel (v / base) (String (digit_char (v mod base)) acc).
Proof. reflexivity. Qed.

Lemma utoa_loop_acc (base : Z) (fuel : nat) :
  forall (v : Z) (acc : string),
    utoa_loop base fuel v acc = utoa_loop base fuel v "" +:+ acc.
Proof.
  induction fuel as [ | fuel IH]; intros v acc; simpl; [reflexivity | ].
  destruct (v / base =? 0); [reflexivity | ].
  rewrite (IH _ (String _ acc)), (IH _ (String _ "")), append_assoc. reflexivity.
Qed.

Lemma half_bound (base v : Z) (f : nat) :
  2 <= base -> 0 <= v < 2 ^ Z.of_nat (S f) -> 0 <= v / base < 2 ^ Z.of_nat f.
Proof.
  intros Hb [Hv0 Hv]. rewrite Nat2Z.inj_succ, Z.pow_succ_r in Hv by lia.
  split; [apply Z.div_pos; lia | ].
  apply Z.div_lt_upper_bound; [lia | ].
  assert (0 < 2 ^ Z.of_nat f) by (apply Z.pow_pos_nonneg; lia). nia.
Qed.

(** With enough fuel the result does not depend on the fuel. *)
Lemma utoa_loop_fuel (base : Z) (f1 : nat) :
  forall (f2 : nat) (v : Z) (acc : string),
    2 <= base ->
    0 <= v < 2 ^ Z.of_nat (S f1) ->
    v < 2 ^ Z.of_nat (S f2) ->
    utoa_loop base (S f1) v acc = utoa_loop base (S f2) v acc.
Proof.
  induction f1 as [ | f1 IH]; intros f2 v acc Hb Hv1 Hv2.
  - assert (Hq : v / base = 0) by (apply Z.div_small; simpl in Hv1; lia).
    simpl. rewrite Hq. reflexivity.
  - cbn [utoa_loop]. destruct (Z.eqb_spec (v / base) 0) as [Hq | Hq]; [reflexivity | ].
    pose proof (half_bound base v (S f1) Hb Hv1) as Hh1.
    pose proof (half_bound base v f2 Hb (conj (proj1 Hv1) Hv2)) as Hh2.
    destruct f2 as [ | f2]; [simpl in Hh2; lia | ].
    apply IH; [exact Hb | exact Hh1 | apply Hh2].
Qed.

Lemma log2_fuel (v : Z) : 0 <= v -> 0 <= v < 2 ^ Z.of_nat (S (Z.to_nat (Z.log2 v))).
Proof.
  intros Hv. split; [exact Hv | ].
  rewrite Nat2Z.inj_succ, Z2Nat.id by apply Z.log2_nonneg.
  destruct (Z.eq_dec v 0) as [-> | Hne]; [reflexivity | ].
  apply Z.log2_spec. lia.
Qed.

Lemma utoa_small (base v : Z) :
  2 <= base -> 0 <= v < base -> utoa base v = String (digit_char v) "".
Proof.
  intros Hb Hv. unfold utoa. cbn [utoa_loop].
  rewrite Z.div_small, Z.mod_small by lia. reflexivity.
Qed.

Lemma utoa_step (base v : Z) :
  2 <= base -> base <= v ->
  utoa base v = utoa base (v / base) +:+ String (digit_char (v mod base)) "".
Proof.
  intros Hb Hv. unfold utoa. cbn [utoa_loop].
  assert (Hq : 0 < v / base) by (apply Z.div_str_pos; lia).
  destruct (Z.eqb_spec (v / base) 0) as [Hz | _]; [lia | ].
  pose proof (log2_fuel v ltac:(lia)) as Hf.
  pose proof (half_bound base v _ Hb Hf) as Hh.
  destruct (Z.to_nat (Z.log2 v)) as [ | f] eqn:Ef; [simpl in Hh; lia | ].
  rewrite utoa_loop_acc. f_equal.
  apply utoa_loop_fuel; [exact Hb | exact Hh | apply log2_fuel; lia].
Qed.

(** Induction on the number of digits. *)
Lemma digits_ind (base : Z) (P : Z -> Prop) :
  2 <= base ->
  (forall v, 0 <= v < base -> P v) ->
  (forall v, base <= v -> P (v / base) -> P v) ->
  forall v, 0 <= v -> P v.
Proof.
  intros Hb Hsmall Hstep v Hv.
  assert (HQ : 0 <= v -> P v); [ | exact (HQ Hv)].
  pattern v. apply Z_lt_induction; [ | exact Hv].
  intros x IH Hx. destruct (Z.lt_ge_cases x base) as [Hlt | Hge].
  - apply Hsmall. lia.
  - assert (Hq : 0 <= x / base < x)
      by (split; [apply Z.div_pos | apply Z.div_lt]; lia).
    apply Hstep; [exact Hge | ]. apply IH; [exact Hq | apply Hq].
Qed.

Lemma utoa_value (base v : Z) :
  2 <= base <= 16 -> 0 <= v -> value_in_base base (utoa base v) = v.
Proof.
  intros Hb Hv. pattern v. apply (digits_ind base); [lia | | | exact Hv]; clear v Hv.
  - intros v Hv. rewrite utoa_small by lia. unfold value_in_base. simpl.
    apply digit_value_digit_char. lia.
  - intros v Hv IH. rewrite utoa_step by lia.
    unfold value_in_base in *. rewrite value_from_append, IH. simpl.
    pose proof (Z.mod_pos_bound v base ltac:(lia)) as Hm.
    rewrite digit_value_digit_char by lia.
    rewrite (Z.div_mod v base) at 3 by lia. lia.
Qed.

Lemma utoa_digits (base v : Z) :
  2 <= base <= 16 -> 0 <= v -> all_chars (is_digit base) (utoa base v) = true.
Proof.
  intros Hb Hv. pattern v. apply (digits_ind base); [lia | | | exact Hv]; clear v Hv.
  - intros v Hv. rewrite utoa_small by lia. simpl.
    rewrite is_digit_digit_char by lia. reflexivity.
  - intros v Hv IH. rewrite utoa_step by lia.
    pose proof (Z.mod_pos_bound v base ltac:(lia)) as Hm.
    rewrite all_chars_append, IH. simpl.
    rewrite is_digit_digit_char by lia. reflexivity.
Qed.

(** A positive value starts with a digit other than [0]. *)
Lemma utoa_leading (base v : Z) :
  2 <= base <= 16 -> 0 < v ->
  exists c rest, utoa base v = String c rest /\ 0 < digit_value c.
Proof.
  intros Hb Hv. assert (H0 : 0 <= v) by lia. revert Hv.
  pattern v. apply (digits_ind base); [lia | | | exact H0]; clear v H0.
  - intros v Hv Hpos. rewrite utoa_small by lia.
    exists (digit_char v), "". split; [reflexivity | ].
    rewrite digit_value_digit_char by lia. exact Hpos.
  - intros v Hv IH _.
    destruct IH as (c & rest & Hu & Hc); [apply Z.div_str_pos; lia | ].
    rewrite utoa_step by lia. rewrite Hu.
    exists c, (rest +:+ String (digit_char (v mod base)) ""). split; [reflexivity | exact Hc].
Qed.

Lemma digit_value_zero : digit_value "0" = 0.
Proof. reflexivity. Qed.

Lemma utoa_unpadded (base v : Z) :
  2 <= base <= 16 -> 0 <= v -> unpadded base (utoa base v) = true.
Proof.
  intros Hb Hv. unfold unpadded. rewrite utoa_digits by assumption. simpl.
  destruct (Z.eq_dec v 0) as [-> | Hne].
  - rewrite utoa_small by lia. reflexivity.
  - destruct (utoa_leading base v Hb ltac:(lia)) as (c & rest & Hu & Hc).
    rewrite Hu. destruct rest; [reflexivity | ].
    destruct (Ascii.eqb_spec c "0") as [-> | _]; [ | reflexivity].
    rewrite digit_value_zero in Hc. lia.
Qed.

(** The number of digits of a value between two powers of the base. *)
Lemma utoa_length (base : Z) (k : nat) :
  forall v : Z,
    2 <= base ->
    0 <= v < base ^ Z.of_nat (S k) ->
    (k = 0%nat \/ base ^ Z.of_nat k <= v) ->
    String.length (utoa base v) = S k.
Proof.
  induction k as [ | k IH]; intros v Hb Hv Hlow.
  - rewrite utoa_small; [reflexivity | exact Hb | ].
    change (Z.of_nat 1) with 1 in Hv. rewrite Z.pow_1_r in Hv. exact Hv.
  - destruct Hlow as [Hk | Hlow]; [discriminate Hk | ].
    assert (Hpk : 0 < base ^ Z.of_nat k) by (apply Z.pow_pos_nonneg; lia).
    rewrite Nat2Z.inj_succ, Z.pow_succ_r in Hlow by lia.
    rewrite (Nat2Z.inj_succ (S k)), Z.pow_succ_r in Hv by lia.
    rewrite utoa_step by nia.
    rewrite length_append, (IH (v / base)); simpl; [lia | exact Hb | | ].
    + split; [apply Z.div_pos; lia | apply Z.div_lt_upper_bound; lia].
    + right. apply Z.div_le_lower_bound; lia.
Qed.

(** Digits hold no NUL, so [%s] prints a numeral whole. *)
Lemma printf_s_digits (base : Z) (s : string) :
  all_chars (is_digit base) s = true -> printf_s s = s.
Proof.
  induction s as [ | c s IH]; simpl; [reflexivity | ].
  intros Hall. apply andb_prop in Hall. destruct Hall as [Hc Hs].
  destruct (Ascii.eqb_spec c char_NUL) as [-> | _].
  - unfold is_digit in Hc. discriminate Hc.
  - rewrite IH by exact Hs. reflexivity.
Qed.

End libc_facts.

(** ** The adapter's conversions *)

Lemma to_unsigned_small (w v : Z) : 0 <= v < 2 ^ w -> to_unsigned w v = v.
Proof. intros Hv. unfold to_unsigned. apply Z.mod_small. exact Hv. Qed.

Lemma to_unsigned_range (w v : Z) : 0 <= w -> 0 <= to_unsigned w v < 2 ^ w.
Proof.
  intros Hw. unfold to_unsigned. apply Z.mod_pos_bound. apply Z.pow_pos_nonneg; lia.
Qed.

Lemma to_signed_small (w v : Z) :
  0 < w -> - 2 ^ (w - 1) <= v < 2 ^ (w - 1) -> to_signed w v = v.
Proof.
  intros Hw Hv. unfold to_signed.
  assert (Hp : 2 ^ w = 2 * 2 ^ (w - 1))
    by (rewrite <- Z.pow_succ_r by lia; f_equal; lia).
  assert (Hpos : 0 < 2 ^ (w - 1)) by (apply Z.pow_pos_nonneg; lia).
  destruct (Z.lt_ge_cases v 0) as [Hneg | Hnn].
  - assert (Hm : v mod 2 ^ w = v + 2 ^ w).
    { symmetry. apply (Z.mod_unique v (2 ^ w) (-1)); lia. }
    simpl. rewrite Hm. destruct (Z.ltb_spec (v + 2 ^ w) (2 ^ (w - 1))); lia.
  - simpl. rewrite Z.mod_small by lia.
    destruct (Z.ltb_spec v (2 ^ (w - 1))); lia.
Qed.

Lemma all_chars_impl (P Q : ascii -> bool) (s : string) :
  (forall c, P c = true -> Q c = true) -> all_chars P s = true -> all_chars Q s = true.
Proof.
  intros HPQ. induction s as [ | c s IH]; simpl; [reflexivity | ].
  intros Hall. apply andb_prop in Hall. destruct Hall as [Hc Hs].
  rewrite (HPQ c Hc), (IH Hs). reflexivity.
Qed.

Lemma is_digit_not_minus (base : Z) (c : ascii) :
  is_digit base c = true -> negb (c =? "-")%char = true.
Proof.
  intros Hd. destruct (Ascii.eqb_spec c "-") as [-> | _]; [ | reflexivity].
  unfold is_digit in Hd. discriminate Hd.
Qed.

Section AdapterFacts.
Context `{Platform}.
Variable printf_2f : double -> string.

Import EspIdfPrint.

Lemma printBinary_loop_zero (pos : nat) (buffer : string) :
  printBinary_loop pos 0 buffer = buffer.
Proof. destruct pos; reflexivity. Qed.

Lemma bit_char (num : Z) :
  (if Z.land num 1 =? 0 then "0"%char else "1"%char) = libc.digit_char (num mod 2).
Proof.
  change 1 with (Z.ones 1) at 1. rewrite Z.land_ones by lia.
  change (2 ^ 1) with 2.
  pose proof (Z.mod_pos_bound num 2 ltac:(lia)) as Hm.
  assert (Hc : num mod 2 = 0 \/ num mod 2 = 1) by lia.
  destruct Hc as [-> | ->]; reflexivity.
Qed.

Lemma printBinary_loop_S (pos : nat) (num : Z) (buffer : string) :
  printBinary_loop (S pos) num buffer
  = if num >? 0
    then printBinary_loop pos (Z.shiftr num 1)
           (String (if Z.land num 1 =? 0 then "0"%char else "1"%char) buffer)
    else buffer.
Proof. reflexivity. Qed.

(** The loop of [printBinary] is the base-2 instance of the digit loop. *)
Lemma printBinary_loop_utoa (pos : nat) :
  forall (num : Z) (buffer : string),
    0 < num ->
    printBinary_loop (S pos) num buffer = libc.utoa_loop 2 (S pos) num buffer.
Proof.
  induction pos as [ | pos IH]; intros num buffer Hnum;
    rewrite printBinary_loop_S, libc_facts.utoa_loop_S;
    (replace (num >? 0) with true by (symmetry; apply Z.gtb_lt; lia));
    rewrite bit_char, Z.shiftr_div_pow2 by lia; change (2 ^ 1) with 2;
    (destruct (Z.eqb_spec (num / 2) 0) as [Hz | Hnz];
     [rewrite Hz; apply printBinary_loop_zero | ]).
  - reflexivity.
  - apply IH. assert (0 <= num / 2) by (apply Z.div_pos; lia). lia.
Qed.

Lemma printBinary_utoa (num : Z) :
  0 <= num < 2 ^ 64 -> printBinary num = libc.utoa 2 num.
Proof.
  intros Hnum. unfold printBinary.
  destruct (Z.eqb_spec num 0) as [-> | Hne]; [reflexivity | ].
  unfold print_s.
  rewrite printBinary_loop_utoa by lia.
  replace (libc.utoa_loop 2 64 num "") with (libc.utoa 2 num).
  - apply (libc_facts.printf_s_digits 2). apply libc_facts.utoa_digits; lia.
  - unfold libc.utoa. apply libc_facts.utoa_loop_fuel; [lia | | ].
    + apply libc_facts.log2_fuel. lia.
    + exact (proj2 Hnum).
Qed.

Lemma long_fits (v : Z) : long_bits <= 64 -> 0 <= v < 2 ^ long_bits -> 0 <= v < 2 ^ 64.
Proof.
  intros Hl Hv. split; [lia | ].
  apply Z.lt_le_trans with (2 ^ long_bits); [lia | ].
  destruct (Z.lt_ge_cases long_bits 0) as [Hneg | Hpos].
  - rewrite Z.pow_neg_r by exact Hneg. lia.
  - apply Z.pow_le_mono_r; lia.
Qed.

(** C6.  On a platform whose [long] has between 32 and 64 bits: the binary
    conversion of an unsigned value writes its binary digits, most
    significant first, without leading zeros, and the single digit [0] for
    zero; a signed value printed in base 16 or 2, through the [long] or the
    [int] member, is printed as its two's-complement bit pattern at the
    width of [long], so the output holds digits only and no minus sign; and
    [%b] on 10 gives [1010], [%B] gives [0b1010], and on zero they give [0]
    and [0b0]. *)
Theorem C6_binary_and_signed_conversions (num snum : Z) :
  32 <= long_bits <= 64 ->
  0 <= num < 2 ^ long_bits ->
  - 2 ^ (long_bits - 1) <= snum < 2 ^ (long_bits - 1) ->
  (print printf_2f (print_ulong num THORLOG_BIN) = printBinary num /\
   unpadded 2 (printBinary num) = true /\
   value_in_base 2 (printBinary num) = num /\
   printBinary 0 = "0") /\
  (forall base : Z,
     base = THORLOG_HEX \/ base = THORLOG_BIN ->
     print printf_2f (print_long snum base) = printSignedLong snum base /\
     print printf_2f (print_int snum base) = printSignedLong snum base /\
     printSignedLong snum base = printUnsignedLong (to_unsigned long_bits snum) base /\
     unpadded base (printSignedLong snum base) = true /\
     value_in_base base (printSignedLong snum base) = to_unsigned long_bits snum /\
     all_chars (fun c => negb (c =? "-")%char) (printSignedLong snum base) = true) /\
  (forall (this : ThorLogging) (p : sink_ref) (rest : va_list) (v : Z),
     _logOutput this = Some p ->
     printFormat "b" (VInteger v :: rest) this
     = Ok (rest, this, [Call p (print_uint (to_unsigned int_bits v) THORLOG_BIN)]) /\
     printFormat "B" (VInteger v :: rest) this
     = Ok (rest, this, [Call p (print_str (Some "0b"));
                        Call p (print_uint (to_unsigned int_bits v) THORLOG_BIN)])) /\
  (stdout printf_2f [print_uint (to_unsigned int_bits 10) THORLOG_BIN] = "1010" /\
   stdout printf_2f [print_str (Some "0b"); print_uint (to_unsigned int_bits 10) THORLOG_BIN]
     = "0b1010" /\
   stdout printf_2f [print_uint (to_unsigned int_bits 0) THORLOG_BIN] = "0" /\
   stdout printf_2f [print_str (Some "0b"); print_uint (to_unsigned int_bits 0) THORLOG_BIN]
     = "0b0").
Proof.
  intros Hl Hnum Hsnum.
  assert (Hp32 : 2 ^ 32 <= 2 ^ long_bits) by (apply Z.pow_le_mono_r; lia).
  assert (Hbin : forall v, 0 <= v < 2 ^ long_bits -> printBinary v = libc.utoa 2 v).
  { intros v Hv. apply printBinary_utoa. apply long_fits; [lia | exact Hv]. }
  assert (Hu : 0 <= to_unsigned long_bits snum < 2 ^ long_bits)
    by (apply to_unsigned_range; lia).
  assert (Hsame : forall base, base = THORLOG_HEX \/ base = THORLOG_BIN ->
            printSignedLong snum base = printUnsignedLong (to_unsigned long_bits snum) base).
  { intros base [-> | ->]; unfold printSignedLong, printUnsignedLong; simpl; [ | reflexivity].
    destruct (Z.ltb_spec snum 0) as [Hneg | Hnn]; [reflexivity | ].
    rewrite to_unsigned_small; [reflexivity | ].
    split; [lia | ]. apply Z.lt_trans with (2 ^ (long_bits - 1)); [lia | ].
    apply Z.pow_lt_mono_r; lia. }
  assert (Hnumeral : forall base, base = THORLOG_HEX \/ base = THORLOG_BIN ->
            printUnsignedLong (to_unsigned long_bits snum) base
            = libc.utoa base (to_unsigned long_bits snum)).
  { intros base [-> | ->]; unfold printUnsignedLong; simpl; [reflexivity | ].
    apply Hbin. exact Hu. }
  assert (Hsmall : forall v, 0 <= v < 16 ->
            stdout printf_2f [print_uint (to_unsigned int_bits v) THORLOG_BIN]
            = libc.utoa 2 v +:+ "").
  { intros v Hv. unfold stdout, print, print_u, printUnsignedLong. simpl.
    rewrite (to_unsigned_small int_bits v) by (unfold int_bits; lia).
    rewrite to_unsigned_small by lia. rewrite Hbin by lia. reflexivity. }
  split; [ | split; [ | split; [ | split; [ | split; [ | split]]]]].
  - repeat split.
    + rewrite (Hbin num Hnum). apply libc_facts.utoa_unpadded; lia.
    + rewrite (Hbin num Hnum). apply libc_facts.utoa_value; lia.
  - intros base Hbase. pose proof (Hsame base Hbase) as Hs.
    pose proof (Hnumeral base Hbase) as Hn.
    assert (Hb : 2 <= base <= 16)
      by (destruct Hbase as [-> | ->]; unfold THORLOG_HEX, THORLOG_BIN; lia).
    repeat split.
    + unfold print, print_i. rewrite to_signed_small by lia. reflexivity.
    + exact Hs.
    + rewrite Hs, Hn. apply libc_facts.utoa_unpadded; lia.
    + rewrite Hs, Hn. apply libc_facts.utoa_value; lia.
    + rewrite Hs, Hn. apply (all_chars_impl (is_digit base)).
      * apply is_digit_not_minus.
      * apply libc_facts.utoa_digits; lia.
  - intros this p rest v Hsink. split.
    + unfold printFormat. simpl. unfold va_arg_unsigned_int, va_arg_integer.
      rewrite bind_lift_Ok, (bind_sink _ _ _ p Hsink). reflexivity.
    + unfold printFormat. simpl. unfold va_arg_unsigned_int, va_arg_integer.
      rewrite bind_lift_Ok, (bind_sink _ _ _ p Hsink), (bind_sink _ _ _ p Hsink).
      reflexivity.
  - rewrite Hsmall by lia. reflexivity.
  - change (stdout printf_2f [print_str (Some "0b");
                              print_uint (to_unsigned int_bits 10) THORLOG_BIN])
      with ("0b" +:+ stdout printf_2f [print_uint (to_unsigned int_bits 10) THORLOG_BIN]).
    rewrite Hsmall by lia. reflexivity.
  - rewrite Hsmall by lia. reflexivity.
  - change (stdout printf_2f [print_str (Some "0b");
                              print_uint (to_unsigned int_bits 0) THORLOG_BIN])
      with ("0b" +:+ stdout printf_2f [print_uint (to_unsigned int_bits 0) THORLOG_BIN]).
    rewrite Hsmall by lia. reflexivity.
Qed.

End AdapterFacts.

(** In base 16, on an ILP32 engine: the long [-1] prints as eight [f]. *)
Lemma C6_binary_and_signed_conversions_witness :
  unpadded 2 (EspIdfPrint.printBinary 10) = true /\
  value_in_base 2 (EspIdfPrint.printBinary 10) = 10 /\
  @EspIdfPrint.printSignedLong ILP32 (-1) THORLOG_HEX = "ffffffff".
Proof.
  assert (Hl : 32 <= @long_bits ILP32 <= 64) by (simpl; lia).
  assert (Hnum : 0 <= 10 < 2 ^ @long_bits ILP32) by (simpl; lia).
  assert (Hsnum : - 2 ^ (@long_bits ILP32 - 1) <= -1 < 2 ^ (@long_bits ILP32 - 1))
    by (simpl; lia).
  pose proof (@C6_binary_and_signed_conversions ILP32 (fun _ => "") 10 (-1) Hl Hnum Hsnum)
    as [[_ [Hunpadded [Hvalue _]]] _].
  split; [exact Hunpadded | split; [exact Hvalue | reflexivity]].
Defined.

(** ** The specifiers [%X] and [%C] *)

Lemma bind_when_sink {B : Type} (b : bool) (c : ThorPrint_call) (k : unit -> M B)
    (this : ThorLogging) (p : sink_ref) :
  _logOutput this = Some p ->
  bind (when b (sink c)) k this = prepend (if b then [Call p c] else []) (k tt this).
Proof.
  intros Hs. destruct b; unfold when.
  - apply bind_sink. exact Hs.
  - rewrite bind_ret, prepend_nil. reflexivity.
Qed.

(** Settles every comparison of [x] with a constant from the hypotheses. *)
Ltac decide_ltb x :=
  repeat match goal with
         | |- context [x <? ?c] =>
             first [ replace (x <? c) with true by (symmetry; apply Z.ltb_lt; lia)
                   | replace (x <? c) with false by (symmetry; apply Z.ltb_ge; lia) ]
         end.

Section Specifiers.
Context `{Platform}.
Variable printf_2f : double -> string.


(** The calls [%X] makes, in terms of its seven comparisons. *)
Lemma percent_X_calls (x : Z) (rest : va_list) (this : ThorLogging) (p : sink_ref) :
  0 <= x < 2 ^ long_bits ->
  _logOutput this = Some p ->
  printFormat "X" (VInteger x :: rest) this
  = Ok (rest, this,
        [Call p (print_str (Some "0x"))]
        ++ (if x <? 0x10000000 then [Call p (print_char "0")] else [])
        ++ (if x <? 0x1000000 then [Call p (print_char "0")] else [])
        ++ (if x <? 0x100000 then [Call p (print_char "0")] else [])
        ++ (if x <? 0x10000 then [Call p (print_char "0")] else [])
        ++ (if x <? 0x1000 then [Call p (print_char "0")] else [])
        ++ (if x <? 0x100 then [Call p (print_char "0")] else [])
        ++ (if x <? 0x10 then [Call p (print_char "0")] else [])
        ++ [Call p (print_ulong x THORLOG_HEX)]).
Proof.
  intros Hx Hsink. unfold printFormat. simpl.
  unfold va_arg_unsigned_long, va_arg_integer.
  rewrite (to_unsigned_small _ _ Hx).
  rewrite bind_lift_Ok, (bind_sink _ _ _ p Hsink).
  rewrite !(bind_when_sink _ _ _ _ p Hsink).
  rewrite (bind_sink _ _ _ p Hsink).
  unfold ret, prepend. rewrite app_nil_r. reflexivity.
Qed.

Lemma hex_length (k : nat) (x : Z) :
  0 <= x < 16 ^ Z.of_nat (S k) ->
  (k = 0%nat \/ 16 ^ Z.of_nat k <= x) ->
  String.length (libc.printf_lx x) = S k.
Proof. intros Hx Hk. apply libc_facts.utoa_length; [lia | exact Hx | exact Hk]. Qed.

(** What [%X] writes through the adapter: [0x], then zeros up to eight
    digits, then the digits of [x]. *)
Lemma percent_X_stdout (x : Z) (p : sink_ref) :
  0 <= x < 2 ^ 32 ->
  exists zeros : string,
    EspIdfPrint.stdout printf_2f (sink_calls
        ([Call p (print_str (Some "0x"))]
        ++ (if x <? 0x10000000 then [Call p (print_char "0")] else [])
        ++ (if x <? 0x1000000 then [Call p (print_char "0")] else [])
        ++ (if x <? 0x100000 then [Call p (print_char "0")] else [])
        ++ (if x <? 0x10000 then [Call p (print_char "0")] else [])
        ++ (if x <? 0x1000 then [Call p (print_char "0")] else [])
        ++ (if x <? 0x100 then [Call p (print_char "0")] else [])
        ++ (if x <? 0x10 then [Call p (print_char "0")] else [])
        ++ [Call p (print_ulong x THORLOG_HEX)]))
    = "0x" +:+ zeros +:+ libc.printf_lx x /\
    all_chars (fun c => (c =? "0")%char) zeros = true /\
    (String.length zeros + String.length (libc.printf_lx x) = 8)%nat.
Proof.
  intros Hx.
  assert (Hcases :
    x < 0x10 \/ 0x10 <= x < 0x100 \/ 0x100 <= x < 0x1000 \/ 0x1000 <= x < 0x10000 \/
    0x10000 <= x < 0x100000 \/ 0x100000 <= x < 0x1000000 \/
    0x1000000 <= x < 0x10000000 \/ 0x10000000 <= x) by lia.
  destruct Hcases as [Hc | [Hc | [Hc | [Hc | [Hc | [Hc | [Hc | Hc]]]]]]]; decide_ltb x;
    cbn [app sink_calls EspIdfPrint.stdout EspIdfPrint.print EspIdfPrint.print_s
         EspIdfPrint.print_c EspIdfPrint.print_ul libc.printf_s libc.printf_c];
    change (EspIdfPrint.printUnsignedLong x THORLOG_HEX) with (libc.printf_lx x);
    rewrite append_nil_r.
  - exists "0000000". split; [reflexivity | split; [reflexivity | ]].
    rewrite (hex_length 0 x); [reflexivity | simpl; lia | lia].
  - exists "000000". split; [reflexivity | split; [reflexivity | ]].
    rewrite (hex_length 1 x); [reflexivity | simpl; lia | simpl; lia].
  - exists "00000". split; [reflexivity | split; [reflexivity | ]].
    rewrite (hex_length 2 x); [reflexivity | simpl; lia | simpl; lia].
  - exists "0000". split; [reflexivity | split; [reflexivity | ]].
    rewrite (hex_length 3 x); [reflexivity | simpl; lia | simpl; lia].
  - exists "000". split; [reflexivity | split; [reflexivity | ]].
    rewrite (hex_length 4 x); [reflexivity | simpl; lia | simpl; lia].
  - exists "00". split; [reflexivity | split; [reflexivity | ]].
    rewrite (hex_length 5 x); [reflexivity | simpl; lia | simpl; lia].
  - exists "0". split; [reflexivity | split; [reflexivity | ]].
    rewrite (hex_length 6 x); [reflexivity | simpl; lia | simpl; lia].
  - exists "". split; [reflexivity | split; [reflexivity | ]].
    rewrite (hex_length 7 x); [reflexivity | simpl; lia | simpl; lia].
Qed.

Lemma value_from_zeros (zeros s : string) :
  all_chars (fun c => (c =? "0")%char) zeros = true ->
  value_in_base 16 (zeros +:+ s) = value_in_base 16 s.
Proof.
  intros Hz. unfold value_in_base. rewrite value_from_append. f_equal.
  induction zeros as [ | c zeros IH]; [reflexivity | ].
  simpl in Hz. apply andb_prop in Hz. destruct Hz as [Hc Hz].
  apply Ascii.eqb_eq in Hc. subst c. simpl. apply IH. exact Hz.
Qed.

Lemma zeros_are_digits (zeros : string) :
  all_chars (fun c => (c =? "0")%char) zeros = true ->
  all_chars (is_digit 16) zeros = true.
Proof.
  apply all_chars_impl. intros c Hc. apply Ascii.eqb_eq in Hc. subst c. reflexivity.
Qed.

(** C5.  On a platform whose [long] has at least 32 bits, for an argument
    [x] below [2^32]: [%X] reads one argument and the adapter writes exactly
    ten characters, [0x] and then eight lowercase hexadecimal digits that
    denote [x] (so zeros fill the left); and after [begin(VERBOSE, sink)] on
    an engine without hooks, [infoln("Hex: %X", 0xDEAD)] makes the adapter
    write [I: Hex: 0x0000dead] and a carriage return. *)
Theorem C5_percent_X_eight_digits (x : Z) (rest : va_list) (this : ThorLogging)
    (p : sink_ref) :
  32 <= long_bits ->
  0 <= x < 2 ^ 32 ->
  _logOutput this = Some p ->
  (exists (t : events) (digits : string),
     printFormat "X" (VInteger x :: rest) this = Ok (rest, this, t) /\
     EspIdfPrint.stdout printf_2f (sink_calls t) = "0x" +:+ digits /\
     String.length digits = 8%nat /\
     all_chars (is_digit 16) digits = true /\
     value_in_base 16 digits = x /\
     String.length (EspIdfPrint.stdout printf_2f (sink_calls t)) = 10%nat) /\
  (forall this0 : ThorLogging,
   _prefix this0 = None -> _suffix this0 = None ->
   exists (this1 : ThorLogging) (t : events),
     (begin THORLOG_LEVEL_VERBOSE (Some p) true ;; infoln "Hex: %X" [VInteger 0xDEAD]) this0
     = Ok (tt, this1, t) /\
     EspIdfPrint.stdout printf_2f (sink_calls t) = "I: Hex: 0x0000dead" +:+ String "013" "").
Proof.
  intros Hl Hx Hsink.
  assert (Hp32 : 2 ^ 32 <= 2 ^ long_bits) by (apply Z.pow_le_mono_r; lia).
  split.
  - destruct (percent_X_stdout x p Hx) as (zeros & Hout & Hzeros & Hlen).
    eexists. exists (zeros +:+ libc.printf_lx x).
    split; [apply percent_X_calls; [lia | exact Hsink] | ].
    rewrite Hout. repeat split.
    + rewrite length_append. exact Hlen.
    + rewrite all_chars_append, (zeros_are_digits zeros Hzeros).
      apply libc_facts.utoa_digits; lia.
    + rewrite (value_from_zeros zeros _ Hzeros). apply libc_facts.utoa_value; lia.
    + simpl. rewrite length_append, Hlen. reflexivity.
  - intros this0 Hpre Hsuf.
    set (this1 := {| _level := THORLOG_LEVEL_VERBOSE; _showLevel := true;
                     _logOutput := Some p; _prefix := None; _suffix := None |}).
    assert (Hbegin : begin THORLOG_LEVEL_VERBOSE (Some p) true this0 = Ok (tt, this1, [])).
    { unfold begin. rewrite bind_get. unfold put, id. rewrite Hpre, Hsuf. reflexivity. }
    assert (Hbody : print "Hex: %X" [VInteger 0xDEAD] this1
                    = Ok ([], this1,
                          [Call p (print_char "H"); Call p (print_char "e");
                           Call p (print_char "x"); Call p (print_char ":");
                           Call p (print_char " "); Call p (print_str (Some "0x"));
                           Call p (print_char "0"); Call p (print_char "0");
                           Call p (print_char "0"); Call p (print_char "0");
                           Call p (print_ulong 0xDEAD THORLOG_HEX)])).
    { change (print "Hex: %X" [VInteger 0xDEAD]) with
        (sink (print_char "H") ;; sink (print_char "e") ;; sink (print_char "x") ;;
         sink (print_char ":") ;; sink (print_char " ") ;;
         args' <- printFormat "X" [VInteger 0xDEAD] ;; ret args').
      rewrite !(bind_sink _ _ this1 p eq_refl).
      rewrite (bind_Ok _ _ _ _ _ _ (percent_X_calls 0xDEAD [] this1 p ltac:(lia) eq_refl)).
      reflexivity. }
    exists this1. eexists. split.
    + rewrite (bind_Ok _ _ _ _ _ _ Hbegin). unfold infoln.
      rewrite (printLevel_emitted this1 THORLOG_LEVEL_INFO true _ _ _ p this1 _
                 ltac:(cbv; split; discriminate) ltac:(cbv; discriminate) eq_refl Hbody).
      reflexivity.
    + reflexivity.
Qed.

(** The calls [%C] makes. *)
Lemma percent_C_calls (v : Z) (rest : va_list) (this : ThorLogging) (p : sink_ref) :
  _logOutput this = Some p ->
  let c := to_signed int_bits v in
  printFormat "C" (VInteger v :: rest) this
  = Ok (rest, this,
        if (c >=? 0x20) && (c <? 0x7F)
        then [Call p (print_char (char_of_int c))]
        else [Call p (print_str (Some "0x"))]
             ++ (if c <? 0x10 then [Call p (print_char "0")] else [])
             ++ [Call p (print_uint (to_unsigned int_bits c) THORLOG_HEX)]).
Proof.
  intros Hsink c. unfold printFormat. simpl. unfold va_arg_int, va_arg_integer.
  rewrite bind_lift_Ok. fold c.
  destruct ((c >=? 0x20) && (c <? 0x7F)).
  - rewrite (bind_sink _ _ _ p Hsink). reflexivity.
  - assert (Hinner :
      (sink (print_str (Some "0x")) ;;
       when (c <? 0x10) (sink (print_char "0")) ;;
       sink (print_uint (to_unsigned int_bits c) THORLOG_HEX)) this
      = Ok (tt, this,
            [Call p (print_str (Some "0x"))]
            ++ (if c <? 0x10 then [Call p (print_char "0")] else [])
            ++ [Call p (print_uint (to_unsigned int_bits c) THORLOG_HEX)])).
    { rewrite (bind_sink _ _ _ p Hsink), (bind_when_sink _ _ _ _ p Hsink),
        (sink_Ok _ _ p Hsink). reflexivity. }
    rewrite (bind_Ok _ _ _ _ _ _ Hinner). unfold ret, prepend.
    rewrite app_nil_r. reflexivity.
Qed.

(** [%C] on an argument that is a byte value: the character itself when it
    is printable, else [0x] and the two hexadecimal digits of the byte. *)
Lemma percent_C_byte (c : Z) (rest : va_list) (this : ThorLogging) (p : sink_ref) :
  32 <= long_bits ->
  0 <= c <= 255 ->
  _logOutput this = Some p ->
  exists t : events,
    printFormat "C" (VInteger c :: rest) this = Ok (rest, this, t) /\
    (0x20 <= c <= 0x7E ->
     EspIdfPrint.stdout printf_2f (sink_calls t) = String (ascii_of_N (Z.to_N c)) "") /\
    (~ 0x20 <= c <= 0x7E ->
     exists digits : string,
       EspIdfPrint.stdout printf_2f (sink_calls t) = "0x" +:+ digits /\
       String.length digits = 2%nat /\
       all_chars (is_digit 16) digits = true /\
       value_in_base 16 digits = c).
Proof.
  intros Hl Hc Hsink.
  assert (Hp32 : 2 ^ 32 <= 2 ^ long_bits) by (apply Z.pow_le_mono_r; lia).
  assert (Hint : to_signed int_bits c = c)
    by (apply to_signed_small; unfold int_bits; simpl; lia).
  assert (Hchar : char_of_int c = ascii_of_N (Z.to_N c)).
  { unfold char_of_int. rewrite to_unsigned_small; [reflexivity | ].
    unfold char_bits. simpl. lia. }
  assert (Hlx : EspIdfPrint.print printf_2f (print_uint (to_unsigned int_bits c) THORLOG_HEX)
                = libc.printf_lx c).
  { unfold EspIdfPrint.print, EspIdfPrint.print_u, EspIdfPrint.printUnsignedLong. simpl.
    rewrite (to_unsigned_small int_bits c) by (unfold int_bits; simpl; lia).
    rewrite to_unsigned_small by lia. reflexivity. }
  eexists. split; [apply (percent_C_calls c rest this p Hsink) | ].
  cbv zeta. rewrite Hint.
  destruct (Z.lt_ge_cases c 0x20) as [Hlow | Hge20];
    [ | destruct (Z.lt_ge_cases c 0x7F) as [Hprintable | Hhigh]].
  - replace (c >=? 0x20) with false by (symmetry; rewrite Z.geb_leb; apply Z.leb_gt; lia).
    cbn [andb]. split; [lia | intros _].
    destruct (Z.lt_ge_cases c 0x10) as [H1 | H2]; decide_ltb c;
      cbn [app sink_calls EspIdfPrint.stdout]; rewrite Hlx.
    + exists ("0" +:+ libc.printf_lx c). rewrite append_nil_r. repeat split.
      * simpl. rewrite (hex_length 0 c); [reflexivity | simpl; lia | lia].
      * simpl. apply libc_facts.utoa_digits; lia.
      * rewrite (value_from_zeros "0" _ eq_refl). apply libc_facts.utoa_value; lia.
    + exists (libc.printf_lx c). rewrite append_nil_r. repeat split.
      * rewrite (hex_length 1 c); [reflexivity | simpl; lia | simpl; lia].
      * apply libc_facts.utoa_digits; lia.
      * apply libc_facts.utoa_value; lia.
  - replace (c >=? 0x20) with true by (symmetry; rewrite Z.geb_leb; apply Z.leb_le; lia).
    replace (c <? 0x7F) with true by (symmetry; apply Z.ltb_lt; lia).
    cbn [andb]. split; [intros _ | lia]. simpl. rewrite Hchar. reflexivity.
  - replace (c <? 0x7F) with false by (symmetry; apply Z.ltb_ge; lia).
    rewrite andb_false_r. split; [lia | intros _]. decide_ltb c.
    cbn [app sink_calls EspIdfPrint.stdout]. rewrite Hlx.
    exists (libc.printf_lx c). rewrite append_nil_r. repeat split.
    + rewrite (hex_length 1 c); [reflexivity | simpl; lia | simpl; lia].
    + apply libc_facts.utoa_digits; lia.
    + apply libc_facts.utoa_value; lia.
Qed.

(** C3 fails outside the byte values.  For a negative argument the test
    [c < 0x10] holds, so the padding zero is written, and then the value
    converted to [unsigned int] is printed with all its digits: [-1] gives
    [0x0ffffffff], nine digits.  For an argument above 255 nothing narrows
    it to its low byte: 256 gives [0x100] and 0x141 gives [0x141], where the
    low byte 0x41 is the letter [A]. *)
Theorem C3_percent_C_outside_a_byte :
  @stdout_of ILP32 _ printf_2f (@printFormat ILP32 "C" [VInteger (-1)] engine_verbose)
    = Some "0x0ffffffff" /\
  @stdout_of LP64 _ printf_2f (@printFormat LP64 "C" [VInteger (-1)] engine_verbose)
    = Some "0x0ffffffff" /\
  @stdout_of ILP32 _ printf_2f (@printFormat ILP32 "C" [VInteger 256] engine_verbose)
    = Some "0x100" /\
  @stdout_of ILP32 _ printf_2f (@printFormat ILP32 "C" [VInteger 0x141] engine_verbose)
    = Some "0x141" /\
  @stdout_of ILP32 _ printf_2f (@printFormat ILP32 "C" [VInteger 0x07] engine_verbose)
    = Some "0x07" /\
  @stdout_of ILP32 _ printf_2f (@printFormat ILP32 "C" [VInteger 0x41] engine_verbose)
    = Some "A".
Proof. repeat split. Qed.

End Specifiers.

(** [%X] on [0xDEAD], on the ILP32 engine with every level enabled. *)
Lemma C5_percent_X_eight_digits_witness :
  exists (t : events) (digits : string),
    @printFormat ILP32 "X" [VInteger 0xDEAD] engine_verbose = Ok ([], engine_verbose, t) /\
    @EspIdfPrint.stdout ILP32 (fun _ => "") (sink_calls t) = "0x" +:+ digits /\
    String.length digits = 8%nat /\
    all_chars (is_digit 16) digits = true /\
    value_in_base 16 digits = 0xDEAD /\
    String.length (@EspIdfPrint.stdout ILP32 (fun _ => "") (sink_calls t)) = 10%nat.
Proof.
  assert (Hl : 32 <= @long_bits ILP32) by (simpl; lia).
  assert (Hx : 0 <= 0xDEAD < 2 ^ 32) by lia.
  exact (proj1 (@C5_percent_X_eight_digits ILP32 (fun _ => "") 0xDEAD [] engine_verbose
                  0%nat Hl Hx eq_refl)).
Defined.

(** [warningln("x")] on the engine with threshold WARNING and both hooks
    returns with the engine as it was. *)
Lemma C9_logging_calls_are_read_only_witness :
  engine_hooked = engine_hooked /\
  _level engine_hooked = _level engine_hooked /\
  _showLevel engine_hooked = _showLevel engine_hooked /\
  _logOutput engine_hooked = _logOutput engine_hooked /\
  _prefix engine_hooked = _prefix engine_hooked /\
  _suffix engine_hooked = _suffix engine_hooked.
Proof.
  apply (proj1 (@C9_logging_calls_are_read_only ILP32) Warning true "x" []
           engine_hooked engine_hooked
           [Invoke 1%nat (Some 0%nat) 3; Call 0%nat (print_char "W");
            Call 0%nat (print_str (Some ": ")); Call 0%nat (print_char "x");
            Invoke 2%nat (Some 0%nat) 3; Call 0%nat (print_str (Some THORLOG_CR))]).
  reflexivity.
Defined.

(** [error("x")] on the engine with every level enabled: the tag is [E]. *)
Lemma C10_tag_lookup_in_bounds_witness :
  @log ILP32 Error false "x" [] engine_verbose
  = Ok (tt, engine_verbose,
        prefix_events engine_verbose 0%nat (level_of Error)
        ++ [Call 0%nat (print_char (tag_of Error)); Call 0%nat (print_str (Some ": "))]
        ++ [Call 0%nat (print_char "x")]
        ++ suffix_events engine_verbose 0%nat (level_of Error)
        ++ terminator_events 0%nat false).
Proof.
  destruct (@C10_tag_lookup_in_bounds ILP32 Error) as (_ & _ & _ & _ & _ & _ & _ & Hlog).
  apply (Hlog false "x" [] [] engine_verbose engine_verbose 0%nat
           [Call 0%nat (print_char "x")]).
  - cbv. discriminate.
  - reflexivity.
  - reflexivity.
  - reflexivity.
Defined.

(** * Further properties of the engine and of the adapter *)

(** ** Laws of the computations *)

Lemma bind_bind {A B C : Type} (m : M A) (k : A -> M B) (h : B -> M C)
    (this : ThorLogging) :
  bind (bind m k) h this = bind m (fun a => bind (k a) h) this.
Proof.
  unfold bind. destruct (m this) as [[[a this1] t1] | f]; [ | reflexivity].
  destruct (k a this1) as [[[b this2] t2] | f]; [ | reflexivity].
  destruct (h b this2) as [[[c this3] t3] | f]; [ | reflexivity].
  rewrite app_assoc. reflexivity.
Qed.

Lemma bind_ret_r {A : Type} (m : M A) (this : ThorLogging) :
  bind m (fun a => ret a) this = m this.
Proof.
  unfold bind, ret. destruct (m this) as [[[a this1] t1] | f]; [ | reflexivity].
  rewrite app_nil_r. reflexivity.
Qed.

Lemma emits_ret {A : Type} (a : A) : emits (ret a) a [].
Proof. intros this p _. reflexivity. Qed.

Lemma emits_sink (c : ThorPrint_call) : emits (sink c) tt [c].
Proof. intros this p Hs. apply sink_Ok. exact Hs. Qed.

Lemma emits_bind {A B : Type} (m : M A) (k : A -> M B) (a : A) (b : B)
    (calls1 calls2 : list ThorPrint_call) :
  emits m a calls1 -> emits (k a) b calls2 -> emits (bind m k) b (calls1 ++ calls2).
Proof.
  intros Hm Hk this p Hs.
  rewrite (bind_Ok _ _ _ _ _ _ (Hm this p Hs)), (Hk this p Hs). simpl.
  rewrite map_app. reflexivity.
Qed.

Lemma emits_when (b : bool) (c : ThorPrint_call) :
  emits (when b (sink c)) tt (if b then [c] else []).
Proof. destruct b; [apply emits_sink | apply emits_ret]. Qed.

Lemma emits_lift_Ok {A : Type} (a : A) : emits (lift (Ok a)) a [].
Proof. intros this p _. reflexivity. Qed.

Lemma emits_unique {A : Type} (m : M A) (a1 a2 : A) (calls1 calls2 : list ThorPrint_call) :
  emits m a1 calls1 -> emits m a2 calls2 -> a1 = a2 /\ calls1 = calls2.
Proof.
  intros H1 H2.
  pose proof (H1 engine_verbose 0%nat eq_refl) as E1.
  pose proof (H2 engine_verbose 0%nat eq_refl) as E2.
  rewrite E1 in E2. injection E2 as Ea Ec. split; [exact Ea | ].
  clear H1 H2 E1. revert calls2 Ec. induction calls1 as [ | c calls1 IH]; intros [ | c2 calls2] Ec;
    try discriminate Ec; [reflexivity | ].
  simpl in Ec. injection Ec as Ec1 Ec2. subst c2. f_equal. apply IH. exact Ec2.
Qed.

(** ** Arguments and formats *)

(** Splits on the tests of [printFormat] for the specifier [f], in order. *)
Ltac split_specifier f :=
  repeat match goal with
         | |- context [(f =? ?c)%char] => destruct (f =? c)%char; cbn [orb]
         end.

(** Walks down a computation that only calls the sink. *)
Ltac emits_step :=
  cbv beta iota;
  match goal with
  | |- emits (bind _ _) _ _ => eapply emits_bind
  | |- emits (ret _) _ _ => apply emits_ret
  | |- emits (sink _) _ _ => apply emits_sink
  | |- emits (when _ (sink _)) _ _ => apply emits_when
  | |- emits (lift (Ok _)) _ _ => apply emits_lift_Ok
  end.

Ltac unfold_va_arg :=
  unfold va_arg_int, va_arg_unsigned_int, va_arg_long, va_arg_unsigned_long,
    va_arg_integer, va_arg_double, va_arg_string, va_arg_pointer.

Section Arguments.
Context `{Platform}.

(** A specifier that reads no argument: ['%'] itself, or a character that
    is no specifier. *)
Lemma printFormat_no_argument (f : ascii) :
  specifier_class f = None ->
  exists calls, forall args : va_list, emits (printFormat f args) args calls.
Proof.
  unfold specifier_class, printFormat. split_specifier f; intros Hk;
    try discriminate Hk; eexists; intros args; repeat emits_step.
Qed.

(** A specifier that reads an argument, on an argument of its class. *)
Lemma printFormat_argument (f : ascii) (a : va_slot) (k : arg_class) :
  specifier_class f = Some k ->
  class_of_slot a = k ->
  exists calls, forall args : va_list, emits (printFormat f (a :: args)) args calls.
Proof.
  unfold specifier_class, printFormat. split_specifier f; intros Hk Ha;
    try discriminate Hk; injection Hk as Hk; subst k;
    destruct a as [v | d | s | addr]; try discriminate Ha; unfold_va_arg;
    try (eexists; intros args; repeat emits_step; fail).
  (* %C: the calls depend on the value *)
  destruct ((to_signed int_bits v >=? 0x20) && (to_signed int_bits v <? 0x7F)) eqn:Hp.
  - eexists. intros args. eapply emits_bind; [apply emits_lift_Ok | ]. cbv beta iota.
    rewrite Hp. repeat emits_step.
  - eexists. intros args. eapply emits_bind; [apply emits_lift_Ok | ]. cbv beta iota.
    rewrite Hp. repeat emits_step.
Qed.

(** A specifier that reads an argument, when the list is exhausted or the
    next argument is of another class. *)
Lemma printFormat_bad_argument (f : ascii) (args : va_list) (k : arg_class)
    (this : ThorLogging) :
  specifier_class f = Some k ->
  match args with
  | [] => True
  | a :: _ => class_of_slot a <> k
  end ->
  printFormat f args this = Fault BadVaArg.
Proof.
  unfold specifier_class, printFormat. split_specifier f; intros Hk Ha;
    try discriminate Hk; injection Hk as Hk; subst k;
    destruct args as [ | [v | d | s | addr] rest]; try reflexivity;
    exfalso; apply Ha; reflexivity.
Qed.

End Arguments.

Lemma arg_class_eqb_eq (k1 k2 : arg_class) : arg_class_eqb k1 k2 = true <-> k1 = k2.
Proof. destruct k1, k2; simpl; split; intros E; try reflexivity; discriminate E. Qed.

Lemma bind_Ok_Fault {A B : Type} (m : M A) (k : A -> M B) (this this1 : ThorLogging)
    (a : A) (t1 : events) (f : fault) :
  m this = Ok (a, this1, t1) -> k a this1 = Fault f -> bind m k this = Fault f.
Proof. intros Hm Hk. rewrite (bind_Ok _ _ _ _ _ _ Hm), Hk. reflexivity. Qed.

Lemma bind_Fault {A B : Type} (m : M A) (k : A -> M B) (this : ThorLogging) (f : fault) :
  m this = Fault f -> bind m k this = Fault f.
Proof. intros Hm. unfold bind. rewrite Hm. reflexivity. Qed.

Section Scan.
Context `{Platform}.

(** The three scans of a format, one turn of the loop unfolded. *)
Lemma print_cons2 (c1 c2 : ascii) (s : string) (args : va_list) :
  print (String c1 (String c2 s)) args
  = if (c1 =? char_NUL)%char then ret args
    else if (c1 =? "%")%char then
      (if (c2 =? char_NUL)%char then ret args
       else bind (printFormat c2 args) (fun args' => print s args'))
    else bind (sink (print_char c1)) (fun _ => print (String c2 s) args).
Proof. reflexivity. Qed.

Lemma print_cons1 (c : ascii) (args : va_list) :
  print (String c "") args
  = if (c =? char_NUL)%char then ret args
    else if (c =? "%")%char then ret args
    else bind (sink (print_char c)) (fun _ => ret args).
Proof. reflexivity. Qed.

Lemma args_match_cons2 (c1 c2 : ascii) (s : string) (args : va_list) :
  args_match (String c1 (String c2 s)) args
  = if (c1 =? char_NUL)%char then true
    else if (c1 =? "%")%char then
      (if (c2 =? char_NUL)%char then true
       else match specifier_class c2 with
            | None => args_match s args
            | Some k =>
                match args with
                | [] => false
                | a :: args' => arg_class_eqb (class_of_slot a) k && args_match s args'
                end
            end)
    else args_match (String c2 s) args.
Proof. reflexivity. Qed.

Lemma directives_cons2 (c1 c2 : ascii) (s : string) :
  directives (String c1 (String c2 s))
  = if (c1 =? char_NUL)%char then O
    else if (c1 =? "%")%char then
      (if (c2 =? char_NUL)%char then O
       else match specifier_class c2 with
            | None => directives s
            | Some _ => S (directives s)
            end)
    else directives (String c2 s).
Proof. reflexivity. Qed.

(** The scan of [print], by cases on whether the arguments fit. *)
Lemma print_scan (format : string) :
  forall args : va_list,
    (args_match format args = true ->
     exists calls, emits (print format args) (skipn (directives format) args) calls) /\
    (args_match format args = false ->
     forall (this : ThorLogging) (p : sink_ref),
       _logOutput this = Some p -> print format args this = Fault BadVaArg).
Proof.
  induction format as [ | c | c1 c2 s IHs IHc2s] using string_pair_ind; intros args.
  - split; [intros _ | discriminate]. exists []. apply emits_ret.
  - rewrite print_cons1. simpl args_match. simpl directives.
    destruct (c =? char_NUL)%char; [split; [intros _; exists []; apply emits_ret | discriminate] | ].
    destruct (c =? "%")%char; [split; [intros _; exists []; apply emits_ret | discriminate] | ].
    split; [intros _ | discriminate]. eexists. repeat emits_step.
  - rewrite print_cons2, args_match_cons2, directives_cons2.
    destruct (c1 =? char_NUL)%char; [split; [intros _; exists []; apply emits_ret | discriminate] | ].
    destruct (c1 =? "%")%char.
    + destruct (c2 =? char_NUL)%char;
        [split; [intros _; exists []; apply emits_ret | discriminate] | ].
      destruct (specifier_class c2) as [k | ] eqn:Hk.
      * destruct args as [ | a args'].
        -- split; [discriminate | intros _ this p Hsink].
           apply bind_Fault. apply (printFormat_bad_argument c2 [] k this Hk). exact I.
        -- destruct (arg_class_eqb (class_of_slot a) k) eqn:Ha; cbn [andb].
           ++ apply arg_class_eqb_eq in Ha.
              destruct (printFormat_argument c2 a k Hk Ha) as [calls1 Hc1].
              specialize (Hc1 args').
              destruct (IHs args') as [IHok IHbad]. split.
              ** intros Hm. destruct (IHok Hm) as [calls2 Hc2].
                 exists (calls1 ++ calls2). simpl skipn.
                 eapply emits_bind; [exact Hc1 | exact Hc2].
              ** intros Hm this p Hsink.
                 eapply bind_Ok_Fault; [apply (Hc1 this p Hsink) | apply (IHbad Hm this p Hsink)].
           ++ split; [discriminate | intros _ this p Hsink].
              apply bind_Fault. apply (printFormat_bad_argument c2 (a :: args') k this Hk).
              intros E. apply arg_class_eqb_eq in E. rewrite E in Ha. discriminate Ha.
      * destruct (printFormat_no_argument c2 Hk) as [calls1 Hc1]. specialize (Hc1 args).
        destruct (IHs args) as [IHok IHbad]. split.
        -- intros Hm. destruct (IHok Hm) as [calls2 Hc2].
           exists (calls1 ++ calls2). eapply emits_bind; [exact Hc1 | exact Hc2].
        -- intros Hm this p Hsink.
           eapply bind_Ok_Fault; [apply (Hc1 this p Hsink) | apply (IHbad Hm this p Hsink)].
    + destruct (IHc2s args) as [IHok IHbad]. split.
      * intros Hm. destruct (IHok Hm) as [calls2 Hc2].
        exists ([print_char c1] ++ calls2).
        eapply emits_bind; [apply emits_sink | exact Hc2].
      * intros Hm this p Hsink.
        eapply bind_Ok_Fault; [apply (sink_Ok _ _ p Hsink) | apply (IHbad Hm this p Hsink)].
Qed.


(** What [print] returns depends on the engine through its sink only. *)
Lemma print_transfer (format : string) (args args' : va_list)
    (this this' this2 : ThorLogging) (p : sink_ref) (body : events) :
  _logOutput this = Some p ->
  _logOutput this2 = Some p ->
  print format args this = Ok (args', this', body) ->
  print format args this2 = Ok (args', this2, body).
Proof.
  intros Hs Hs2 Hp.
  destruct (print_scan format args) as [Hok Hbad].
  destruct (args_match format args) eqn:Hm.
  - destruct (Hok eq_refl) as [calls Hc].
    rewrite (Hc this p Hs) in Hp. injection Hp as Ha Ht Hb. subst.
    apply (Hc this2 p Hs2).
  - rewrite (Hbad eq_refl this p Hs) in Hp. discriminate Hp.
Qed.



Lemma stdout_print_chars (printf_2f : double -> string) (s : string) :
  EspIdfPrint.stdout printf_2f (map print_char (list_ascii_of_string s)) = s.
Proof. induction s as [ | c s IH]; simpl; [ | rewrite IH]; reflexivity. Qed.

Lemma print_plain_emits (format : string) (args : va_list) :
  all_chars plain format = true ->
  emits (print format args) args (map print_char (list_ascii_of_string format)).
Proof.
  induction format as [ | c format IH]; intros Hall.
  - apply emits_ret.
  - simpl in Hall. apply andb_prop in Hall. destruct Hall as [Hc Hall].
    unfold plain in Hc. apply andb_prop in Hc. destruct Hc as [Hpct Hnul].
    apply negb_true_iff in Hpct, Hnul.
    replace (print (String c format) args)
      with (bind (sink (print_char c)) (fun _ => print format args))
      by (simpl; rewrite Hnul, Hpct; reflexivity).
    change (map print_char (list_ascii_of_string (String c format)))
      with ([print_char c] ++ map print_char (list_ascii_of_string format)).
    eapply emits_bind; [apply emits_sink | apply IH; exact Hall].
Qed.

(** X3.  A format without ['%'] (and without NUL) is copied to the sink
    character by character, in order, whatever the arguments, and none of
    them is read; through the adapter the output is the format itself. *)
Theorem print_plain_text_verbatim (printf_2f : double -> string) (format : string)
    (args : va_list) (this : ThorLogging) (p : sink_ref) :
  all_chars plain format = true ->
  _logOutput this = Some p ->
  print format args this
  = Ok (args, this, map (Call p) (map print_char (list_ascii_of_string format))) /\
  EspIdfPrint.stdout printf_2f (map print_char (list_ascii_of_string format)) = format.
Proof.
  intros Hall Hsink. split.
  - apply (print_plain_emits format args Hall this p Hsink).
  - apply stdout_print_chars.
Qed.

(** X4.  Formats compose: when the first format holds no NUL and does not
    end in a lone ['%'], interpreting the concatenation is interpreting the
    first format and then the second on the arguments that are left. *)
Theorem print_append (s1 s2 : string) :
  forall (args : va_list) (this : ThorLogging),
    all_chars not_nul s1 = true ->
    ends_in_lone_percent s1 = false ->
    print (s1 +:+ s2) args this = (args1 <- print s1 args ;; print s2 args1) this.
Proof.
  induction s1 as [ | c | c1 c2 s IHs IHc2s] using string_pair_ind;
    intros args this Hnul Hlone.
  - change (print "" args) with (ret args). rewrite bind_ret. reflexivity.
  - simpl in Hnul, Hlone. rewrite andb_true_r in Hnul. unfold not_nul in Hnul.
    apply negb_true_iff in Hnul. rewrite Hnul in Hlone.
    destruct (c =? "%")%char eqn:E1; [discriminate Hlone | ].
    rewrite print_cons1, Hnul, E1, bind_bind.
    replace (print (String c "" +:+ s2) args)
      with (bind (sink (print_char c)) (fun _ => print s2 args))
      by (simpl; rewrite Hnul, E1; destruct s2; reflexivity).
    apply bind_ext. intros _ this1. rewrite bind_ret. reflexivity.
  - change (String c1 (String c2 s) +:+ s2) with (String c1 (String c2 (s +:+ s2))).
    rewrite !print_cons2.
    change (ends_in_lone_percent (String c1 (String c2 s))) with
      (if (c1 =? char_NUL)%char then false
       else if (c1 =? "%")%char then
         (if (c2 =? char_NUL)%char then false else ends_in_lone_percent s)
       else ends_in_lone_percent (String c2 s)) in Hlone.
    simpl in Hnul. apply andb_prop in Hnul. destruct Hnul as [Hn1 Hnul].
    apply andb_prop in Hnul. destruct Hnul as [Hn2 Hnul].
    unfold not_nul in Hn1, Hn2. apply negb_true_iff in Hn1, Hn2.
    rewrite Hn1 in *. rewrite Hn2 in *.
    destruct (c1 =? "%")%char.
    + rewrite bind_bind. apply bind_ext. intros args' this1. apply IHs; assumption.
    + rewrite bind_bind. apply bind_ext. intros _ this1.
      change (String c2 (s +:+ s2)) with (String c2 s +:+ s2).
      apply IHc2s; [ | exact Hlone].
      simpl. unfold not_nul at 1. rewrite Hn2. exact Hnul.
Qed.

End Scan.

(** ** The engine across calls *)

Lemma thorlog_constrain_range (val min max : Z) :
  min <= max -> min <= thorlog_constrain val min max <= max.
Proof.
  intros Hmm. unfold thorlog_constrain.
  destruct (Z.ltb_spec val min); [lia | ].
  rewrite Z.gtb_ltb. destruct (Z.ltb_spec max val); lia.
Qed.

(** X5.  [thorlog_constrain] with [min <= max]: the result lies in
    [min, max]; a value already in the range is returned as it is, so
    clamping twice is clamping once; and the function is monotone. *)
Theorem thorlog_constrain_clamps (val val' min max : Z) :
  min <= max ->
  min <= thorlog_constrain val min max <= max /\
  (min <= val <= max -> thorlog_constrain val min max = val) /\
  (val < min -> thorlog_constrain val min max = min) /\
  (max < val -> thorlog_constrain val min max = max) /\
  thorlog_constrain (thorlog_constrain val min max) min max = thorlog_constrain val min max /\
  (val <= val' -> thorlog_constrain val min max <= thorlog_constrain val' min max).
Proof.
  intros Hmm.
  assert (Hform : forall v, thorlog_constrain v min max = Z.max min (Z.min max v)).
  { intros v. unfold thorlog_constrain. rewrite Z.gtb_ltb.
    destruct (Z.ltb_spec v min); [lia | ]. destruct (Z.ltb_spec max v); lia. }
  rewrite !Hform. repeat split; intros; lia.
Qed.

Lemma thorlog_constrain_clamps_witness :
  thorlog_constrain 9 0 6 = 6 /\ thorlog_constrain (-3) 0 6 = 0.
Proof.
  destruct (thorlog_constrain_clamps 9 9 0 6 ltac:(lia)) as (_ & _ & _ & Hhigh & _).
  split; [apply Hhigh; lia | reflexivity].
Defined.

Section Sessions.
Context `{Platform}.

(** X6.  On an engine whose threshold is SILENT or below, such as the one
    the default constructor builds, each of the fourteen logging calls
    returns at once: no event, the engine as it was, and the sink, which may
    be null, is not touched. *)
Theorem silent_engine_logs_nothing (this : ThorLogging) (s : severity) (ln : bool)
    (msg : string) (args : va_list) :
  _level this <= THORLOG_LEVEL_SILENT ->
  log s ln msg args this = Ok (tt, this, []).
Proof.
  intros Hsilent. rewrite log_printLevel. apply printLevel_gated.
  pose proof (level_of_range s). unfold THORLOG_LEVEL_SILENT in Hsilent. lia.
Qed.

Lemma run_api_keeps_range (c : api_call) (this : ThorLogging) :
  0 <= _level this <= 6 ->
  match run_api c this with
  | Ok (_, this', _) => 0 <= _level this' <= 6
  | Fault f => f <> TagOutOfBounds
  end.
Proof.
  intros Hr.
  assert (Hclamp : forall v,
            0 <= thorlog_constrain v THORLOG_LEVEL_SILENT THORLOG_LEVEL_VERBOSE <= 6)
    by (intros v; apply thorlog_constrain_range; discriminate).
  destruct c; simpl; try exact Hr; try apply Hclamp.
  pose proof (keeps_this_log s ln msg args this) as Hk.
  destruct (log s ln msg args this) as [[[u this'] t] | f]; [subst this'; exact Hr | exact Hk].
Qed.

(** X7.  Whatever sequence of public members a program calls on an engine
    whose threshold lies in [0, 6], such as a new engine: when the sequence
    returns the threshold still lies in [0, 6]; and the sequence never
    stops on a read outside the level table. *)
Theorem run_calls_keeps_threshold_in_range (cs : list api_call) :
  forall this : ThorLogging,
    0 <= _level this <= 6 ->
    match run_calls cs this with
    | Ok (_, this', _) => 0 <= _level this' <= 6
    | Fault f => f <> TagOutOfBounds
    end.
Proof.
  induction cs as [ | c cs IH]; intros this Hr; [exact Hr | ].
  cbn [run_calls]. unfold bind.
  pose proof (run_api_keeps_range c this Hr) as Hc.
  destruct (run_api c this) as [[[u this1] t1] | f]; [ | exact Hc].
  specialize (IH this1 Hc).
  destruct (run_calls cs this1) as [[[u2 this2] t2] | f]; exact IH.
Qed.

End Sessions.

(** A program that sets an out-of-range level, a hook, and logs. *)
Lemma run_calls_keeps_threshold_in_range_witness :
  match @run_calls ILP32
          [Call_begin 99 (Some 0%nat) true; Call_setPrefix (Some 1%nat);
           Call_log Error true "x" []; Call_setLevel (-5)] ThorLogging_new with
  | Ok (_, this', _) => 0 <= _level this' <= 6
  | Fault f => f <> TagOutOfBounds
  end.
Proof.
  apply (@run_calls_keeps_threshold_in_range ILP32).
  unfold ThorLogging_new, THORLOG_LEVEL_SILENT. simpl. lia.
Defined.

(** Nothing is logged through a new engine. *)
Lemma silent_engine_logs_nothing_witness :
  @log ILP32 Fatal true "boot" [] ThorLogging_new = Ok (tt, ThorLogging_new, []).
Proof.
  apply (@silent_engine_logs_nothing ILP32 ThorLogging_new Fatal true "boot" []).
  apply Z.le_refl.
Defined.

Lemma constrain_threshold (v : Z) :
  thorlog_constrain v THORLOG_LEVEL_SILENT THORLOG_LEVEL_VERBOSE = Z.max 0 (Z.min 6 v).
Proof.
  unfold thorlog_constrain, THORLOG_LEVEL_SILENT, THORLOG_LEVEL_VERBOSE.
  rewrite Z.gtb_ltb. destruct (Z.ltb_spec v 0); [lia | ]. destruct (Z.ltb_spec 6 v); lia.
Qed.

Lemma setLevel_Ok (v : Z) (this : ThorLogging) :
  setLevel v this = Ok (tt, with_level this (Z.max 0 (Z.min 6 v)), []).
Proof.
  unfold setLevel. rewrite bind_get. unfold put, with_level, id.
  rewrite constrain_threshold. reflexivity.
Qed.

Section Composition.
Context `{Platform}.

(** X8.  [setLevel(v)] followed by a logging call of severity [s]: the call
    is gated out exactly when [v < level_of s] and emitted exactly when
    [level_of s <= v], for every integer [v]; the clamping of [v] into
    [0, 6] never changes which of the seven severities pass. *)
Theorem setLevel_then_log (this : ThorLogging) (v : Z) (s : severity) (ln : bool)
    (msg : string) (args args' : va_list) (p : sink_ref) (this' : ThorLogging)
    (body : events) :
  let set := with_level this (Z.max 0 (Z.min 6 v)) in
  (v < level_of s ->
   (setLevel v ;; log s ln msg args) this = Ok (tt, set, [])) /\
  (level_of s <= v ->
   _logOutput this = Some p ->
   print msg args this = Ok (args', this', body) ->
   (setLevel v ;; log s ln msg args) this
   = Ok (tt, set, emitted this p (level_of s) ln body)).
Proof.
  intros set. pose proof (level_of_range s) as Hr. split.
  - intros Hlt. rewrite (bind_Ok _ _ _ _ _ _ (setLevel_Ok v this)), log_printLevel.
    fold set. rewrite printLevel_gated; [reflexivity | ]. unfold set. simpl. lia.
  - intros Hle Hsink Hprint.
    rewrite (bind_Ok _ _ _ _ _ _ (setLevel_Ok v this)), log_printLevel. fold set.
    rewrite (printLevel_emitted set (level_of s) ln msg args args' p set body);
      [reflexivity | exact Hr | unfold set; simpl; lia | exact Hsink | ].
    apply (print_transfer msg args args' this this' set p body Hsink Hsink Hprint).
Qed.

(** X9.  The hooks.  After [setPrefix(f)] an emitted call invokes [f] once,
    with the sink and the level of the call, before the tag and the body;
    after [clearPrefix()] it starts with the tag.  After [setSuffix(f)] the
    call invokes [f] once right after the body, before the terminator;
    after [clearSuffix()] nothing stands between the body and the
    terminator.  The body itself holds calls on the sink only. *)
Theorem hooks_run_around_the_body (this : ThorLogging) (s : severity) (ln : bool)
    (msg : string) (args args' : va_list) (p : sink_ref) (this' : ThorLogging)
    (body : events) (f : hook_ref) :
  level_of s <= _level this ->
  _logOutput this = Some p ->
  print msg args this = Ok (args', this', body) ->
  (setPrefix (Some f) ;; log s ln msg args) this
  = Ok (tt, with_prefix this (Some f),
        [Invoke f (Some p) (level_of s)] ++ tag_events this p (level_of s) ++ body
        ++ suffix_events this p (level_of s) ++ terminator_events p ln) /\
  (clearPrefix ;; log s ln msg args) this
  = Ok (tt, with_prefix this None,
        tag_events this p (level_of s) ++ body
        ++ suffix_events this p (level_of s) ++ terminator_events p ln) /\
  (setSuffix (Some f) ;; log s ln msg args) this
  = Ok (tt, with_suffix this (Some f),
        prefix_events this p (level_of s) ++ tag_events this p (level_of s) ++ body
        ++ [Invoke f (Some p) (level_of s)] ++ terminator_events p ln) /\
  (clearSuffix ;; log s ln msg args) this
  = Ok (tt, with_suffix this None,
        prefix_events this p (level_of s) ++ tag_events this p (level_of s) ++ body
        ++ terminator_events p ln) /\
  (exists calls, body = map (Call p) calls).
Proof.
  intros Hle Hsink Hprint. pose proof (level_of_range s) as Hr.
  assert (Hrun : forall (setter : M unit) (this1 : ThorLogging),
            setter this = Ok (tt, this1, []) ->
            _level this1 = _level this -> _logOutput this1 = Some p ->
            (setter ;; log s ln msg args) this
            = Ok (tt, this1, emitted this1 p (level_of s) ln body)).
  { intros setter this1 Hset Hlevel Hsink1.
    rewrite (bind_Ok _ _ _ _ _ _ Hset), log_printLevel.
    rewrite (printLevel_emitted this1 (level_of s) ln msg args args' p this1 body);
      [reflexivity | exact Hr | rewrite Hlevel; exact Hle | exact Hsink1 | ].
    apply (print_transfer msg args args' this this' this1 p body Hsink Hsink1 Hprint). }
  repeat split.
  - rewrite (Hrun _ (with_prefix this (Some f)) eq_refl eq_refl Hsink). reflexivity.
  - rewrite (Hrun _ (with_prefix this None) eq_refl eq_refl Hsink). reflexivity.
  - rewrite (Hrun _ (with_suffix this (Some f)) eq_refl eq_refl Hsink). reflexivity.
  - rewrite (Hrun _ (with_suffix this None) eq_refl eq_refl Hsink).
    unfold emitted, suffix_events. simpl. reflexivity.
  - destruct (print_scan msg args) as [Hok Hbad].
    destruct (args_match msg args) eqn:Hm.
    + destruct (Hok eq_refl) as [calls Hc]. exists calls.
      rewrite (Hc this p Hsink) in Hprint. injection Hprint as _ _ Hb. symmetry. exact Hb.
    + rewrite (Hbad eq_refl this p Hsink) in Hprint. discriminate Hprint.
Qed.

(** X10.  Two entry points behave alike on every input exactly when they
    pass the same level and the same newline flag: [notice] is [info] and
    [noticeln] is [infoln], and no other two of the fourteen coincide. *)
Theorem entry_points_coincide_iff (s s' : severity) (ln ln' : bool) :
  (forall (msg : string) (args : va_list) (this : ThorLogging),
     log s ln msg args this = log s' ln' msg args this)
  <-> (level_of s = level_of s' /\ ln = ln').
Proof.
  split.
  - intros Heq. specialize (Heq "" [] engine_verbose).
    destruct s, s', ln, ln'; first [ split; reflexivity | cbv in Heq; discriminate Heq ].
  - intros [Hl Hln] msg args this. subst ln'. rewrite !log_printLevel, Hl. reflexivity.
Qed.

(** X11.  The engine never tests its sink: a call that passes the gate on
    an engine whose sink is null and whose tag is shown (the default)
    dereferences the null pointer.  This is what a logging call does after
    [setLevel] on an engine that was never given a sink by [begin]. *)
Theorem emitted_call_on_null_sink (this : ThorLogging) (s : severity) (ln : bool)
    (msg : string) (args : va_list) :
  _logOutput this = None ->
  _showLevel this = true ->
  level_of s <= _level this ->
  log s ln msg args this = Fault NullSink.
Proof.
  intros Hnull Hshow Hle. pose proof (level_of_range s) as Hr.
  rewrite log_printLevel. unfold printLevel. rewrite bind_get.
  replace (level_of s >? _level this) with false
    by (symmetry; rewrite Z.gtb_ltb; apply Z.ltb_ge; lia).
  replace (level_of s <? THORLOG_LEVEL_SILENT) with false
    by (symmetry; apply Z.ltb_ge; unfold THORLOG_LEVEL_SILENT; lia).
  rewrite (levels_at_tag _ Hr), bind_get.
  assert (Hrest : forall k : unit -> M unit,
            (showLevel <- get _showLevel ;;
             when showLevel
               (tag <- lift (Ok (level_tag (level_of s))) ;;
                sink (print_char tag) ;; sink (print_str (Some ": "))) ;; k tt) this
            = Fault NullSink).
  { intros k. rewrite bind_get, Hshow. unfold when. apply bind_Fault.
    rewrite bind_lift_Ok. apply bind_Fault. unfold sink. rewrite Hnull. reflexivity. }
  destruct (_prefix this) as [f | ].
  - rewrite bind_invoke. rewrite (Hrest (fun _ => _)). reflexivity.
  - rewrite bind_ret. apply (Hrest (fun _ => _)).
Qed.

End Composition.

Lemma emitted_call_on_null_sink_witness :
  (@setLevel THORLOG_LEVEL_VERBOSE ;; @log ILP32 Info true "x" []) ThorLogging_new
  = Fault NullSink.
Proof.
  rewrite (bind_Ok _ _ _ _ _ _ (setLevel_Ok THORLOG_LEVEL_VERBOSE ThorLogging_new)).
  rewrite (@emitted_call_on_null_sink ILP32 _ Info true "x" []);
    [reflexivity | reflexivity | reflexivity | cbv; discriminate].
Defined.

Lemma hooks_run_around_the_body_witness :
  (setPrefix (Some 7%nat) ;; @log ILP32 Error false "x" []) engine_verbose
  = Ok (tt, with_prefix engine_verbose (Some 7%nat),
        [Invoke 7%nat (Some 0%nat) 2; Call 0%nat (print_char "E");
         Call 0%nat (print_str (Some ": ")); Call 0%nat (print_char "x")]).
Proof.
  apply (proj1 (@hooks_run_around_the_body ILP32 engine_verbose Error false "x" [] []
                  0%nat engine_verbose [Call 0%nat (print_char "x")] 7%nat
                  ltac:(cbv; discriminate) eq_refl eq_refl)).
Defined.

(** ** Integer conversions *)




Lemma unpadded_head (base : Z) (s : string) :
  unpadded base s = true ->
  exists c rest, s = String c rest /\ is_digit base c = true.
Proof.
  unfold unpadded. intros Hu. apply andb_prop in Hu. destruct Hu as [Hall Hhead].
  destruct s as [ | c rest]; [discriminate Hhead | ].
  exists c, rest. split; [reflexivity | ].
  simpl in Hall. apply andb_prop in Hall. apply Hall.
Qed.

Lemma printf_ld_value (v : Z) : decimal_value (libc.printf_ld v) = v.
Proof.
  unfold libc.printf_ld. destruct (Z.ltb_spec v 0) as [Hneg | Hnn].
  - simpl. rewrite libc_facts.utoa_value by lia. lia.
  - destruct (unpadded_head 10 _ (libc_facts.utoa_unpadded 10 v ltac:(lia) Hnn))
      as (c & rest & Hs & Hc).
    rewrite Hs. unfold decimal_value.
    destruct (Ascii.eqb_spec c "-") as [-> | _]; [discriminate Hc | ].
    rewrite <- Hs. apply libc_facts.utoa_value; lia.
Qed.


Section Numerals.
Context `{Platform}.
Variable printf_2f : double -> string.

Lemma stdout_one (c : ThorPrint_call) :
  EspIdfPrint.stdout printf_2f [c] = EspIdfPrint.print printf_2f c.
Proof. simpl. apply append_nil_r. Qed.

(** X12.  Every base other than 2 and 16 is decimal for the adapter, the
    supported base 10 and any unsupported one alike: a signed value is
    written as a minus sign, when it is negative, and the unpadded decimal
    digits of its magnitude; an unsigned value as its unpadded decimal
    digits; the numeral read back is the value. *)
Theorem adapter_decimal_and_fallback (n base : Z) :
  base <> THORLOG_HEX ->
  base <> THORLOG_BIN ->
  EspIdfPrint.printSignedLong n base = EspIdfPrint.printSignedLong n THORLOG_DEC /\
  EspIdfPrint.printUnsignedLong n base = EspIdfPrint.printUnsignedLong n THORLOG_DEC /\
  decimal_value (EspIdfPrint.printSignedLong n base) = n /\
  (n < 0 ->
   exists digits,
     EspIdfPrint.printSignedLong n base = String "-" digits /\
     unpadded 10 digits = true /\ value_in_base 10 digits = - n) /\
  (0 <= n ->
   EspIdfPrint.printSignedLong n base = EspIdfPrint.printUnsignedLong n base /\
   unpadded 10 (EspIdfPrint.printUnsignedLong n base) = true /\
   value_in_base 10 (EspIdfPrint.printUnsignedLong n base) = n).
Proof.
  intros Hhex Hbin.
  assert (Hs : EspIdfPrint.printSignedLong n base = libc.printf_ld n).
  { unfold EspIdfPrint.printSignedLong.
    destruct (base =? THORLOG_DEC); [reflexivity | ].
    destruct (Z.eqb_spec base THORLOG_HEX); [contradiction | ].
    destruct (Z.eqb_spec base THORLOG_BIN); [contradiction | reflexivity]. }
  assert (Hu : EspIdfPrint.printUnsignedLong n base = libc.printf_lu n).
  { unfold EspIdfPrint.printUnsignedLong.
    destruct (base =? THORLOG_DEC); [reflexivity | ].
    destruct (Z.eqb_spec base THORLOG_HEX); [contradiction | ].
    destruct (Z.eqb_spec base THORLOG_BIN); [contradiction | reflexivity]. }
  rewrite Hs, Hu. repeat split.
  - apply printf_ld_value.
  - intros Hneg. exists (libc.utoa 10 (- n)). unfold libc.printf_ld.
    replace (n <? 0) with true by (symmetry; apply Z.ltb_lt; lia).
    repeat split; [apply libc_facts.utoa_unpadded | apply libc_facts.utoa_value]; lia.
  - unfold libc.printf_ld, libc.printf_lu.
    replace (n <? 0) with false by (symmetry; apply Z.ltb_ge; lia). reflexivity.
  - apply libc_facts.utoa_unpadded; lia.
  - apply libc_facts.utoa_value; lia.
Qed.


End Numerals.

Lemma printf_s_no_nul (s : string) : all_chars not_nul s = true -> libc.printf_s s = s.
Proof.
  induction s as [ | c s IH]; simpl; [reflexivity | ].
  intros Hall. apply andb_prop in Hall. destruct Hall as [Hc Hs].
  unfold not_nul in Hc. apply negb_true_iff in Hc. rewrite Hc, (IH Hs). reflexivity.
Qed.

Lemma printf_s_stops_at_nul (s1 s2 : string) :
  all_chars not_nul s1 = true -> libc.printf_s (s1 +:+ String char_NUL s2) = s1.
Proof.
  induction s1 as [ | c s1 IH]; simpl; [reflexivity | ].
  intros Hall. apply andb_prop in Hall. destruct Hall as [Hc Hs].
  unfold not_nul in Hc. apply negb_true_iff in Hc. rewrite Hc, (IH Hs). reflexivity.
Qed.

Section MoreSpecifiers.
Context `{Platform}.
Variable printf_2f : double -> string.



(** X16.  [%s] reads one string argument and hands the pointer to the sink
    as it is, null or not; the adapter writes nothing for a null pointer,
    and else the characters of the string up to its first NUL. *)
Theorem percent_s_string (str : option string) (s1 s2 : string) (rest : va_list)
    (this : ThorLogging) (p : sink_ref) :
  _logOutput this = Some p ->
  all_chars not_nul s1 = true ->
  printFormat "s" (VString str :: rest) this = Ok (rest, this, [Call p (print_str str)]) /\
  EspIdfPrint.stdout printf_2f [print_str None] = "" /\
  EspIdfPrint.stdout printf_2f [print_str (Some s1)] = s1 /\
  EspIdfPrint.stdout printf_2f [print_str (Some (s1 +:+ String char_NUL s2))] = s1.
Proof.
  intros Hsink Hs1. repeat split.
  - unfold printFormat. simpl. unfold_va_arg.
    rewrite bind_lift_Ok, (bind_sink _ _ _ p Hsink). reflexivity.
  - rewrite stdout_one. apply printf_s_no_nul. exact Hs1.
  - rewrite stdout_one. apply printf_s_stops_at_nul. exact Hs1.
Qed.

(** X17.  [%t] and [%T] read one integer argument as an [int]: a value
    other than zero is written [t] and [true], zero is written [f] and
    [false]. *)
Theorem boolean_specifiers (v : Z) (rest : va_list) (this : ThorLogging) (p : sink_ref) :
  - 2 ^ 31 <= v < 2 ^ 31 ->
  _logOutput this = Some p ->
  exists t_short t_long,
    printFormat "t" (VInteger v :: rest) this = Ok (rest, this, t_short) /\
    printFormat "T" (VInteger v :: rest) this = Ok (rest, this, t_long) /\
    (v <> 0 ->
     EspIdfPrint.stdout printf_2f (sink_calls t_short) = "t" /\
     EspIdfPrint.stdout printf_2f (sink_calls t_long) = "true") /\
    (v = 0 ->
     EspIdfPrint.stdout printf_2f (sink_calls t_short) = "f" /\
     EspIdfPrint.stdout printf_2f (sink_calls t_long) = "false").
Proof.
  intros Hv Hsink.
  assert (Hint : to_signed int_bits v = v)
    by (apply to_signed_small; unfold int_bits; simpl; lia).
  eexists. eexists. split; [ | split; [ | split]].
  - unfold printFormat. simpl. unfold_va_arg.
    rewrite bind_lift_Ok, (bind_sink _ _ _ p Hsink), Hint. reflexivity.
  - unfold printFormat. simpl. unfold_va_arg.
    rewrite bind_lift_Ok, (bind_sink _ _ _ p Hsink), Hint. reflexivity.
  - intros Hne. destruct (Z.eqb_spec v 0) as [E | _]; [contradiction | ].
    split; reflexivity.
  - intros ->. split; reflexivity.
Qed.


(** X19.  [printBinary] on a value that is not zero writes as many digits
    as the value has bits, [log2 num + 1], which is at most 64, the room of
    its buffer. *)
Theorem printBinary_length (num : Z) :
  0 < num < 2 ^ 64 ->
  String.length (EspIdfPrint.printBinary num) = S (Z.to_nat (Z.log2 num)) /\
  (String.length (EspIdfPrint.printBinary num) <= 64)%nat.
Proof.
  intros Hnum.
  assert (Hlen : String.length (EspIdfPrint.printBinary num) = S (Z.to_nat (Z.log2 num))).
  { rewrite printBinary_utoa by lia.
    pose proof (Z.log2_spec num ltac:(lia)) as Hlog.
    pose proof (Z.log2_nonneg num) as Hnn.
    apply libc_facts.utoa_length; [lia | | ].
    - rewrite Nat2Z.inj_succ, Z2Nat.id by lia. lia.
    - right. rewrite Z2Nat.id by lia. lia. }
  split; [exact Hlen | ]. rewrite Hlen.
  assert (Z.log2 num < 64) by (apply Z.log2_lt_pow2; lia).
  lia.
Qed.

End MoreSpecifiers.

(** ** The further properties at concrete inputs *)



Lemma print_plain_text_verbatim_witness :
  @print ILP32 "ready" [VInteger 1] engine_verbose
  = Ok ([VInteger 1], engine_verbose,
        map (Call 0%nat) (map print_char (list_ascii_of_string "ready"))) /\
  @EspIdfPrint.stdout ILP32 (fun _ => "") (map print_char (list_ascii_of_string "ready"))
  = "ready".
Proof.
  apply (@print_plain_text_verbatim ILP32 (fun _ => "") "ready" [VInteger 1]
           engine_verbose 0%nat); reflexivity.
Defined.

Lemma print_append_witness :
  @print ILP32 ("T=%d" +:+ " C") [VInteger 21] engine_verbose
  = (args1 <- @print ILP32 "T=%d" [VInteger 21] ;; @print ILP32 " C" args1) engine_verbose.
Proof.
  apply (@print_append ILP32 "T=%d" " C" [VInteger 21] engine_verbose); reflexivity.
Defined.

Lemma setLevel_then_log_witness :
  (setLevel THORLOG_LEVEL_WARNING ;; @log ILP32 Info true "x" []) engine_verbose
  = Ok (tt, with_level engine_verbose 3, []).
Proof.
  apply (proj1 (@setLevel_then_log ILP32 engine_verbose THORLOG_LEVEL_WARNING Info true
                  "x" [] [] 0%nat engine_verbose [])).
  cbv. reflexivity.
Defined.

Lemma adapter_decimal_and_fallback_witness :
  @EspIdfPrint.printSignedLong ILP32 (-42) 8 = @EspIdfPrint.printSignedLong ILP32 (-42) 10 /\
  decimal_value (@EspIdfPrint.printSignedLong ILP32 (-42) 8) = -42.
Proof.
  assert (H16 : 8 <> THORLOG_HEX) by discriminate.
  assert (H2 : 8 <> THORLOG_BIN) by discriminate.
  destruct (@adapter_decimal_and_fallback ILP32 (-42) 8 H16 H2) as (Hs & _ & Hv & _).
  split; [exact Hs | exact Hv].
Defined.




Lemma percent_s_string_witness :
  @printFormat ILP32 "s" [VString None] engine_verbose
  = Ok ([], engine_verbose, [Call 0%nat (print_str None)]) /\
  @EspIdfPrint.stdout ILP32 (fun _ => "") [print_str None] = "".
Proof.
  destruct (@percent_s_string ILP32 (fun _ => "") None "ab" "cd" [] engine_verbose 0%nat
              eq_refl eq_refl) as (Hcall & Hnull & _).
  split; [exact Hcall | exact Hnull].
Defined.

Lemma boolean_specifiers_witness :
  exists t_short t_long,
    @printFormat ILP32 "t" [VInteger 5] engine_verbose = Ok ([], engine_verbose, t_short) /\
    @printFormat ILP32 "T" [VInteger 5] engine_verbose = Ok ([], engine_verbose, t_long) /\
    (5 <> 0 ->
     @EspIdfPrint.stdout ILP32 (fun _ => "") (sink_calls t_short) = "t" /\
     @EspIdfPrint.stdout ILP32 (fun _ => "") (sink_calls t_long) = "true") /\
    (5 = 0 ->
     @EspIdfPrint.stdout ILP32 (fun _ => "") (sink_calls t_short) = "f" /\
     @EspIdfPrint.stdout ILP32 (fun _ => "") (sink_calls t_long) = "false").
Proof.
  assert (Hv : - 2 ^ 31 <= 5 < 2 ^ 31) by lia.
  exact (@boolean_specifiers ILP32 (fun _ => "") 5 [] engine_verbose 0%nat Hv eq_refl).
Defined.


Lemma printBinary_length_witness :
  String.length (EspIdfPrint.printBinary 10) = S (Z.to_nat (Z.log2 10)) /\
  (String.length (EspIdfPrint.printBinary 10) <= 64)%nat.
Proof.
  apply (printBinary_length 10). lia.
Defined.

(** ** [begin] and [setShowLevel], followed by a logging call *)

Section Configuration.
Context `{Platform}.

(** A fault in the body is the fault of the whole call. *)
Lemma printLevel_body_fault (this : ThorLogging) (level : Z) (cr : bool) (msg : string)
    (args : va_list) (p : sink_ref) (f : fault) :
  1 <= level <= 6 ->
  level <= _level this ->
  _logOutput this = Some p ->
  print msg args this = Fault f ->
  printLevel level cr msg args this = Fault f.
Proof.
  intros Hl Hle Hsink Hprint. unfold printLevel. rewrite bind_get.
  replace (level >? _level this) with false
    by (symmetry; rewrite Z.gtb_ltb; apply Z.ltb_ge; lia).
  replace (level <? THORLOG_LEVEL_SILENT) with false
    by (symmetry; apply Z.ltb_ge; unfold THORLOG_LEVEL_SILENT; lia).
  rewrite (levels_at_tag level Hl), bind_get.
  assert (Hrest : forall k : unit -> M unit,
            (showLevel <- get _showLevel ;;
             when showLevel
               (tag <- lift (Ok (level_tag level)) ;;
                sink (print_char tag) ;; sink (print_str (Some ": "))) ;;
             print msg args ;; k tt) this = Fault f).
  { intros k. rewrite bind_get. destruct (_showLevel this); unfold when.
    - eapply bind_Ok_Fault.
      + rewrite bind_lift_Ok, (bind_sink _ _ _ p Hsink), (sink_Ok _ _ p Hsink). reflexivity.
      + apply bind_Fault. exact Hprint.
    - rewrite bind_ret. apply bind_Fault. exact Hprint. }
  destruct (_prefix this) as [g | ].
  - rewrite bind_invoke, (Hrest (fun _ => _)). reflexivity.
  - rewrite bind_ret. apply (Hrest (fun _ => _)).
Qed.

(** X20.  [begin(v, sink, showLevel)] followed by a logging call of a
    severity [s] with [level_of s <= v].  The call is emitted on the new
    sink, whatever the sink was before; the tag is shown or not as the new
    flag says; and the hooks are those set before [begin], which [begin]
    leaves in place.  The call returns when the arguments fit the format,
    and is undefined when they do not. *)
Theorem begin_then_log (this : ThorLogging) (v : Z) (p : sink_ref) (showLevel : bool)
    (s : severity) (ln : bool) (msg : string) (args : va_list) :
  level_of s <= v ->
  let begun := {| _level := Z.max 0 (Z.min 6 v); _showLevel := showLevel;
                  _logOutput := Some p;
                  _prefix := _prefix this; _suffix := _suffix this |} in
  (args_match msg args = true ->
   exists calls,
     (begin v (Some p) showLevel ;; log s ln msg args) this
     = Ok (tt, begun,
           prefix_events this p (level_of s)
           ++ (if showLevel
               then [Call p (print_char (tag_of s)); Call p (print_str (Some ": "))]
               else [])
           ++ map (Call p) calls
           ++ suffix_events this p (level_of s) ++ terminator_events p ln)) /\
  (args_match msg args = false ->
   (begin v (Some p) showLevel ;; log s ln msg args) this = Fault BadVaArg).
Proof.
  intros Hle begun. pose proof (level_of_range s) as Hr.
  assert (Hbegin : begin v (Some p) showLevel this = Ok (tt, begun, [])).
  { unfold begin. rewrite bind_get. unfold put, id. rewrite constrain_threshold.
    reflexivity. }
  assert (Hgate : level_of s <= _level begun) by (unfold begun; simpl; lia).
  destruct (print_scan msg args) as [Hok Hbad]. split.
  - intros Hm. destruct (Hok Hm) as [calls Hc]. exists calls.
    rewrite (bind_Ok _ _ _ _ _ _ Hbegin), log_printLevel.
    rewrite (printLevel_emitted begun (level_of s) ln msg args _ p begun _
               Hr Hgate eq_refl (Hc begun p eq_refl)).
    unfold emitted, tag_events, prefix_events, suffix_events. simpl.
    rewrite level_tag_of. reflexivity.
  - intros Hm. rewrite (bind_Ok _ _ _ _ _ _ Hbegin), log_printLevel.
    rewrite (printLevel_body_fault begun (level_of s) ln msg args p BadVaArg
               Hr Hgate eq_refl (Hbad Hm begun p eq_refl)).
    reflexivity.
Qed.

(** X21.  [setShowLevel] and [getShowLevel].  The getter returns what was
    set.  After [setShowLevel(false)] an emitted call writes no tag: the
    body follows the prefix hook at once.  After [setShowLevel(true)] it
    writes the letter of the severity and [": "] before the body. *)
Theorem setShowLevel_controls_the_tag (this : ThorLogging) (s : severity) (ln : bool)
    (msg : string) (args args' : va_list) (p : sink_ref) (this' : ThorLogging)
    (body : events) :
  level_of s <= _level this ->
  _logOutput this = Some p ->
  print msg args this = Ok (args', this', body) ->
  let shown (b : bool) :=
    {| _level := _level this; _showLevel := b; _logOutput := _logOutput this;
       _prefix := _prefix this; _suffix := _suffix this |} in
  (forall b, (setShowLevel b ;; getShowLevel) this = Ok (b, shown b, [])) /\
  (setShowLevel false ;; log s ln msg args) this
  = Ok (tt, shown false,
        prefix_events this p (level_of s) ++ body
        ++ suffix_events this p (level_of s) ++ terminator_events p ln) /\
  (setShowLevel true ;; log s ln msg args) this
  = Ok (tt, shown true,
        prefix_events this p (level_of s)
        ++ [Call p (print_char (tag_of s)); Call p (print_str (Some ": "))] ++ body
        ++ suffix_events this p (level_of s) ++ terminator_events p ln).
Proof.
  intros Hle Hsink Hprint shown. pose proof (level_of_range s) as Hr.
  assert (Hset : forall b, setShowLevel b this = Ok (tt, shown b, [])).
  { intros b. unfold setShowLevel. rewrite bind_get. reflexivity. }
  assert (Hrun : forall b,
            (setShowLevel b ;; log s ln msg args) this
            = Ok (tt, shown b, emitted (shown b) p (level_of s) ln body)).
  { intros b. rewrite (bind_Ok _ _ _ _ _ _ (Hset b)), log_printLevel.
    rewrite (printLevel_emitted (shown b) (level_of s) ln msg args args' p (shown b) body);
      [reflexivity | exact Hr | exact Hle | exact Hsink | ].
    apply (print_transfer msg args args' this this' (shown b) p body Hsink Hsink Hprint). }
  split; [ | split].
  - intros b. rewrite (bind_Ok _ _ _ _ _ _ (Hset b)). reflexivity.
  - rewrite (Hrun false). reflexivity.
  - rewrite (Hrun true). unfold emitted, tag_events. simpl. rewrite level_tag_of.
    reflexivity.
Qed.

End Configuration.

Lemma begin_then_log_witness :
  exists calls,
    (begin 99 (Some 3%nat) false ;; @log ILP32 Verbose true "n=%d" [VInteger 7])
      engine_hooked
    = Ok (tt,
          {| _level := Z.max 0 (Z.min 6 99); _showLevel := false; _logOutput := Some 3%nat;
             _prefix := _prefix engine_hooked; _suffix := _suffix engine_hooked |},
          prefix_events engine_hooked 3%nat (level_of Verbose)
          ++ []
          ++ map (Call 3%nat) calls
          ++ suffix_events engine_hooked 3%nat (level_of Verbose)
          ++ terminator_events 3%nat true).
Proof.
  assert (Hle : level_of Verbose <= 99) by (cbv; discriminate).
  exact (proj1 (@begin_then_log ILP32 engine_hooked 99 3%nat false Verbose true "n=%d"
                  [VInteger 7] Hle) eq_refl).
Defined.

Lemma setShowLevel_controls_the_tag_witness :
  (setShowLevel false ;; @log ILP32 Error false "x" []) engine_verbose
  = Ok (tt, engine_untagged, [Call 0%nat (print_char "x")]).
Proof.
  assert (Hle : level_of Error <= _level engine_verbose) by (cbv; discriminate).
  exact (proj1 (proj2 (@setShowLevel_controls_the_tag ILP32 engine_verbose Error false "x"
                         [] [] 0%nat engine_verbose [Call 0%nat (print_char "x")]
                         Hle eq_refl eq_refl))).
Defined.
